(** * vmcnet: Metropolis sampling and energy estimation

    A shallow embedding of [vmcnet/mcmc/metropolis.py] and
    [vmcnet/physics/energy.py].

    Numbers.  The code is embedded over two arithmetics.

    - [float], exact arithmetic: a real number, or one of the three IEEE
      special values.  Operations on finite values are the exact real
      ones; the special values appear where IEEE arithmetic produces them
      without rounding being involved (division by zero, [inf - inf],
      [0 * inf], ...) and propagate as IEEE prescribes.  There is no
      rounding, no overflow or underflow of finite operands and no sign of
      zero.  The general theorems are proved over it; where a statement
      would not survive rounding or overflow it carries the range or the
      hypothesis that makes it hold of the floating-point program too.

    - [B32.f32], IEEE binary32, the default precision of jax: the
      operations are those of the Standard Library's [SpecFloat] at
      precision 24 and maximal exponent 128, correctly rounded, with
      overflow, underflow and signed zeros.  It is executable, and is used
      to evaluate the code where exact arithmetic hides what it does.

    Arrays.  A one-dimensional jnp array is a list; an array of any other
    shape is an [ndarray] (shape and row-major data).  Binary element-wise
    operations broadcast like NumPy on one-dimensional shapes and raise on
    incompatible ones.

    Errors.  A Python call either returns a value or raises: [result]. *)

From Stdlib Require Import Reals ROrderedType Lra List ZArith Bool Lia PeanoNat.
From Stdlib Require SpecFloat.
Import ListNotations.

Open Scope R_scope.

(* ================================================================== *)
(** ** Exceptions *)

Inductive exn : Type :=
| TypeError       (* incompatible shapes *)
| IndexError      (* indexing an axis that has no entry *)
| OverflowError.  (* a Python int that does not fit the 32-bit integers *)

Inductive result (A : Type) : Type :=
| Return (a : A)
| Raise (e : exn).

Arguments Return {A} a.
Arguments Raise {A} e.

Definition bind {A B : Type} (m : result A) (k : A -> result B) : result B :=
  match m with
  | Return a => k a
  | Raise e => Raise e
  end.

Notation "x <- m ;; k" := (bind m (fun x => k))
  (at level 61, m at next level, right associativity).
Notation "' pat <- m ;; k" := (bind m (fun x => match x with pat => k end))
  (at level 61, pat pattern, m at next level, right associativity).


(* ================================================================== *)
(** ** Scalars *)

Inductive float : Type :=
| Fin (r : R)
| PosInf
| NegInf
| NaN.

(** The infinity (or NaN) whose sign is that of a comparison with zero. *)
Definition signed_inf (c : comparison) : float :=
  match c with
  | Gt => PosInf
  | Lt => NegInf
  | Eq => NaN
  end.

Module F.

Definition neg (x : float) : float :=
  match x with
  | Fin a => Fin (- a)
  | PosInf => NegInf
  | NegInf => PosInf
  | NaN => NaN
  end.

Definition add (x y : float) : float :=
  match x, y with
  | NaN, _ | _, NaN => NaN
  | Fin a, Fin b => Fin (a + b)
  | PosInf, NegInf | NegInf, PosInf => NaN
  | PosInf, _ | _, PosInf => PosInf
  | NegInf, _ | _, NegInf => NegInf
  end.

Definition sub (x y : float) : float := add x (neg y).

Definition mul (x y : float) : float :=
  match x, y with
  | NaN, _ | _, NaN => NaN
  | Fin a, Fin b => Fin (a * b)
  | Fin a, PosInf | PosInf, Fin a => signed_inf (Rcompare a 0)
  | Fin a, NegInf | NegInf, Fin a => signed_inf (CompOpp (Rcompare a 0))
  | PosInf, PosInf | NegInf, NegInf => PosInf
  | PosInf, NegInf | NegInf, PosInf => NegInf
  end.

(** [x / 0] is an infinity of the sign of [x], and [0 / 0] is NaN. *)
Definition div (x y : float) : float :=
  match x, y with
  | NaN, _ | _, NaN => NaN
  | Fin a, Fin b =>
      if Req_dec_T b 0 then signed_inf (Rcompare a 0) else Fin (a / b)
  | Fin _, (PosInf | NegInf) => Fin 0
  | PosInf, Fin b => if Rlt_dec b 0 then NegInf else PosInf
  | NegInf, Fin b => if Rlt_dec b 0 then PosInf else NegInf
  | (PosInf | NegInf), (PosInf | NegInf) => NaN
  end.

Definition exp (x : float) : float :=
  match x with
  | Fin a => Fin (Rtrigo_def.exp a)
  | PosInf => PosInf
  | NegInf => Fin 0
  | NaN => NaN
  end.

(** Comparisons: every comparison with NaN is false. *)
Definition ltb (x y : float) : bool :=
  match x, y with
  | NaN, _ | _, NaN => false
  | Fin a, Fin b => match Rcompare a b with Lt => true | _ => false end
  | NegInf, (Fin _ | PosInf) => true
  | Fin _, PosInf => true
  | _, _ => false
  end.

Definition gtb (x y : float) : bool := ltb y x.

Definition eqb (x y : float) : bool :=
  match x, y with
  | Fin a, Fin b => match Rcompare a b with Eq => true | _ => false end
  | PosInf, PosInf | NegInf, NegInf => true
  | _, _ => false
  end.

Definition of_Z (z : Z) : float := Fin (IZR z).
Definition of_nat (n : nat) : float := Fin (INR n).

End F.

Definition is_finite (x : float) : Prop :=
  match x with
  | Fin _ => True
  | _ => False
  end.

(** [x] is a finite number of the closed interval from 0 to 1. *)
Definition in_unit_interval (x : float) : Prop :=
  match x with
  | Fin r => 0 <= r <= 1
  | _ => False
  end.

(* ================================================================== *)
(** ** Arrays *)

Fixpoint zip_with {A B C : Type} (f : A -> B -> C) (xs : list A) (ys : list B)
  : list C :=
  match xs, ys with
  | x :: xs', y :: ys' => f x y :: zip_with f xs' ys'
  | _, _ => []
  end.

(** NumPy broadcasting of a binary element-wise operation on two
    one-dimensional arrays: equal lengths pair up, a length-one array is
    stretched, anything else raises. *)
Definition broadcast2 {A B C : Type} (f : A -> B -> C)
    (xs : list A) (ys : list B) : result (list C) :=
  if Nat.eqb (length xs) (length ys) then Return (zip_with f xs ys)
  else match xs, ys with
       | [x], _ => Return (map (f x) ys)
       | _, [y] => Return (map (fun x => f x y) xs)
       | _, _ => Raise TypeError
       end.

(** An array of arbitrary shape: its shape and its entries in row-major
    order. *)
Record ndarray (T : Type) : Type := mk_ndarray {
  shape : list nat;
  data : list T
}.

Arguments mk_ndarray {T} shape data.
Arguments shape {T} n.
Arguments data {T} n.

Definition size_of_shape (s : list nat) : nat := fold_right Nat.mul 1%nat s.

Definition ndarray_wf {T : Type} (x : ndarray T) : Prop :=
  size_of_shape (shape x) = length (data x).

Module jnp.

Definition square (x : list float) : list float :=
  map (fun v => F.mul v v) x.

Definition exp (x : list float) : list float := map F.exp x.

(** [c * x] for a Python scalar [c]. *)
Definition scalar_multiply (c : float) (x : list float) : list float :=
  map (F.mul c) x.

(** [x - c] for a scalar [c]. *)
Definition subtract_scalar (x : list float) (c : float) : list float :=
  map (fun v => F.sub v c) x.

(** [x == c] for a Python scalar [c]. *)
Definition equal_scalar (x : list float) (c : float) : list bool :=
  map (fun v => F.eqb v c) x.

Definition divide (x y : list float) : result (list float) :=
  broadcast2 F.div x y.

Definition subtract (x y : list float) : result (list float) :=
  broadcast2 F.sub x y.

Definition less (x y : list float) : result (list bool) :=
  broadcast2 F.ltb x y.

Definition greater (x y : list float) : result (list bool) :=
  broadcast2 F.gtb x y.

Definition logical_or (x y : list bool) : result (list bool) :=
  broadcast2 orb x y.

Definition ones_like {A : Type} (x : list A) : list float :=
  map (fun _ => Fin 1) x.

(** [jnp.where(cond, x, y)]: the three arguments broadcast together. *)
Definition where_ (cond : list bool) (x y : list float)
  : result (list float) :=
  xy <- broadcast2 (fun a b => (a, b)) x y ;;
  broadcast2 (fun (c : bool) (p : float * float) =>
                if c then fst p else snd p) cond xy.

Definition sum (x : list float) : float := fold_right F.add (Fin 0) x.

(** The mean of no entries is [0 / 0]. *)
Definition mean (x : list float) : float :=
  F.div (sum x) (F.of_nat (length x)).

(** The dot product of two one-dimensional arrays. *)
Definition dot (x y : list float) : result float :=
  if Nat.eqb (length x) (length y)
  then Return (sum (zip_with F.mul x y))
  else Raise TypeError.

(** Row [i] of [jnp.eye(n)]. *)
Definition eye_row (n i : nat) : list float :=
  map (fun j => if Nat.eqb i j then Fin 1 else Fin 0) (seq 0 n).

Definition eye (n : nat) : list (list float) :=
  map (eye_row n) (seq 0 n).

(** [jnp.reshape(x, (-1,))]. *)
Definition ravel {T : Type} (x : ndarray T) : list T := data x.

(** [jnp.reshape(flat, s)] raises unless [s] holds exactly the entries of
    [flat]. *)
Definition reshape {T : Type} (flat : list T) (s : list nat)
  : result (ndarray T) :=
  if Nat.eqb (size_of_shape s) (length flat)
  then Return (mk_ndarray s flat)
  else Raise TypeError.

End jnp.

(* ================================================================== *)
(** ** Forward-mode differentiation and loops of jax *)

(** What a traced function may do with the numbers it is given.  A Python
    function handed to [jax.jvp] runs on tracers instead of numbers; here
    it is a function polymorphic in an instance of this class. *)
Class Numeric (T : Type) : Type := {
  const : float -> T;
  nadd : T -> T -> T;
  nsub : T -> T -> T;
  nmul : T -> T -> T;
  nneg : T -> T
}.

#[export] Instance Numeric_float : Numeric float := {
  const := fun c => c;
  nadd := F.add;
  nsub := F.sub;
  nmul := F.mul;
  nneg := F.neg
}.

(** A value together with its tangent. *)
Definition dual : Type := (float * float)%type.

#[export] Instance Numeric_dual : Numeric dual := {
  const := fun c => (c, Fin 0);
  nadd := fun x y => (F.add (fst x) (fst y), F.add (snd x) (snd y));
  nsub := fun x y => (F.sub (fst x) (fst y), F.sub (snd x) (snd y));
  nmul := fun x y =>
            (F.mul (fst x) (fst y),
             F.add (F.mul (snd x) (fst y)) (F.mul (fst x) (snd y)));
  nneg := fun x => (F.neg (fst x), F.neg (snd x))
}.

(** The leaves of a pytree of parameters, in the order of
    [jax.tree_util.tree_leaves]. *)
Definition pytree (T : Type) : Type := list T.

Module jax.

(** Pairs primal entries with tangent entries; the two must have the same
    shape. *)
Definition with_tangents (primals tangents : list float)
  : result (list dual) :=
  if Nat.eqb (length primals) (length tangents)
  then Return (combine primals tangents)
  else Raise TypeError.

(** [jax.jvp(f, (x,), (v,))] for [f] from one flat array to one flat
    array: the value of [f] at [x] and its directional derivative along
    [v]. *)
Definition jvp (f : forall T : Type, Numeric T -> list T -> result (list T))
    (primals tangents : list float) : result (list float * list float) :=
  x <- with_tangents primals tangents ;;
  out <- f dual Numeric_dual x ;;
  Return (map fst out, map snd out).

(** [jax.jvp(f, (params, x), (dparams, dx))] for [f] from parameters and
    an array to a flat array. *)
Definition jvp2
    (f : forall T : Type, Numeric T -> pytree T -> ndarray T ->
                          result (list T))
    (primals tangents : pytree float * ndarray float)
  : result (list float * list float) :=
  let '(params, x) := primals in
  let '(dparams, dx) := tangents in
  p <- with_tangents params dparams ;;
  d <- with_tangents (data x) (data dx) ;;
  out <- f dual Numeric_dual p (mk_ndarray (shape x) d) ;;
  Return (map fst out, map snd out).

(** The loop of a scan: [f] applied [length] times to the carry. *)
Fixpoint iterate {C : Type} (f : C -> result C) (carry : C) (length : nat)
  : result C :=
  match length with
  | O => Return carry
  | S n => carry' <- f carry ;; iterate f carry' n
  end.

(** [jax.lax.scan(f, init, xs=None, length=n)], the final carry, the
    stacked per-step outputs being all [None].  jax first traces [f] once
    on the initial carry, whatever the length is: what [f] raises there is
    raised by the scan, even when the loop runs no step. *)
Definition lax_scan {C : Type} (f : C -> result C) (init : C) (length : nat)
  : result C :=
  _ <- f init ;;
  iterate f init length.

End jax.

(** [a[i]] for a traced index [i]: an axis that has no entry raises, and an
    index beyond the last entry is clamped to it. *)
Definition getitem {A : Type} (a : list A) (i : nat) : result A :=
  match a with
  | [] => Raise IndexError
  | x :: _ => Return (nth (Nat.min i (length a - 1)) a x)
  end.


(* ================================================================== *)
(** ** vmcnet/mcmc/metropolis.py *)

(** Modelled from the spec: [PositionAmplitudeData] of
    [vmcnet.updates.data], which is not among the sources: the walker
    state, a position array and the per-chain amplitude cached for it. *)
Record PositionAmplitudeData : Type := mk_PositionAmplitudeData {
  position : ndarray float;
  amplitude : list float
}.

Definition metropolis_symmetric_acceptance
    (amplitude proposed_amplitude : list float) (logabs : bool)
  : result (list float) :=
  if negb logabs then
    let prob_old := jnp.square amplitude in
    let prob_new := jnp.square proposed_amplitude in
    ratio <- jnp.divide prob_new prob_old ;;
    (* safe division by zero *)
    lt <- jnp.less prob_old prob_new ;;
    cond <- jnp.logical_or lt (jnp.equal_scalar prob_old (Fin 0)) ;;
    ratio <- jnp.where_ cond (jnp.ones_like ratio) ratio ;;
    Return ratio
  else
    let log_prob_old := jnp.scalar_multiply (Fin 2) amplitude in
    let log_prob_new := jnp.scalar_multiply (Fin 2) proposed_amplitude in
    (* avoid overflow if log_prob_new - log_prob_old is large *)
    gt <- jnp.greater log_prob_new log_prob_old ;;
    diff <- jnp.subtract log_prob_new log_prob_old ;;
    jnp.where_ gt (jnp.ones_like log_prob_new) (jnp.exp diff).

Section Metropolis.

(** [P]: model parameters; [D]: MCMC data; both opaque pytrees here. *)
Variables P D : Type.

(** The PRNG of jax: keys, [jax.random.split], and [jax.random.uniform]
    and [jax.random.normal] for a given number of entries. *)
Variable PRNGKey : Type.
Variable random_split : PRNGKey -> PRNGKey * PRNGKey.
Variable random_uniform : PRNGKey -> nat -> list float.
Variable random_normal : PRNGKey -> nat -> list float.

Section make_metropolis_step.

Variable proposal_fn : P -> D -> PRNGKey -> result (D * PRNGKey).
Variable acceptance_fn : P -> D -> D -> result (list float).
Variable update_data_fn : D -> D -> list bool -> result D.

(** The mask [jax.random.uniform(subkey, shape=accept_prob.shape) <
    accept_prob]. *)
Definition move_mask_of (subkey : PRNGKey) (accept_prob : list float)
  : list bool :=
  zip_with F.ltb (random_uniform subkey (length accept_prob)) accept_prob.

Definition metrop_step_fn (data : D) (params : P) (key : PRNGKey)
  : result (float * D * PRNGKey) :=
  let '(key, subkey) := random_split key in
  '(proposed_data, key) <- proposal_fn params data key ;;
  accept_prob <- acceptance_fn params data proposed_data ;;
  let move_mask := move_mask_of subkey accept_prob in
  new_data <- update_data_fn data proposed_data move_mask ;;
  Return (jnp.mean accept_prob, new_data, key).

End make_metropolis_step.

Definition make_metropolis_step := metrop_step_fn.

Definition gaussian_proposal (positions : ndarray float) (std_move : float)
    (key : PRNGKey) : ndarray float * PRNGKey :=
  let '(key, subkey) := random_split key in
  (mk_ndarray (shape positions)
     (zip_with F.add (data positions)
        (jnp.scalar_multiply std_move
           (random_normal subkey (length (data positions))))),
   key).

Definition make_position_amplitude_gaussian_proposal
    (model_apply : P -> ndarray float -> result (list float))
    (std_move : float)
  : P -> PositionAmplitudeData -> PRNGKey ->
    result (PositionAmplitudeData * PRNGKey) :=
  fun params data key =>
    let '(proposed_position, key) :=
      gaussian_proposal (position data) std_move key in
    proposed_amplitude <- model_apply params proposed_position ;;
    Return (mk_PositionAmplitudeData proposed_position proposed_amplitude,
            key).

Definition make_position_amplitude_metropolis_symmetric_acceptance
    (logabs : bool)
  : P -> PositionAmplitudeData -> PositionAmplitudeData ->
    result (list float) :=
  fun params data proposed_data =>
    (* del params *)
    metropolis_symmetric_acceptance
      (amplitude data) (amplitude proposed_data) logabs.

End Metropolis.

Arguments metrop_step_fn {P D PRNGKey}.
Arguments move_mask_of {PRNGKey}.
Arguments make_position_amplitude_metropolis_symmetric_acceptance {P}.

Section make_position_amplitude_gaussian_metropolis_step.

Variable P : Type.
Variable PRNGKey : Type.
Variable random_split : PRNGKey -> PRNGKey * PRNGKey.
Variable random_uniform : PRNGKey -> nat -> list float.
Variable random_normal : PRNGKey -> nat -> list float.

(** [update_position_amplitude] of [vmcnet.updates.data], which is not
    among the sources. *)
Variable update_position_amplitude :
  PositionAmplitudeData -> PositionAmplitudeData -> list bool ->
  result PositionAmplitudeData.

Definition make_position_amplitude_gaussian_metropolis_step
    (std_move : float)
    (model_apply : P -> ndarray float -> result (list float))
    (logabs : bool)
  : PositionAmplitudeData -> P -> PRNGKey ->
    result (float * PositionAmplitudeData * PRNGKey) :=
  let proposal_fn :=
    make_position_amplitude_gaussian_proposal
      P PRNGKey random_split random_normal model_apply std_move in
  let accept_fn :=
    make_position_amplitude_metropolis_symmetric_acceptance logabs in
  let metrop_step_fn :=
    make_metropolis_step P PositionAmplitudeData PRNGKey
      random_split random_uniform
      proposal_fn accept_fn update_position_amplitude in
  metrop_step_fn.

End make_position_amplitude_gaussian_metropolis_step.

Arguments make_position_amplitude_gaussian_metropolis_step {P PRNGKey}.
Arguments gaussian_proposal {PRNGKey}.
Arguments make_position_amplitude_gaussian_proposal {P PRNGKey}.


(* ================================================================== *)
(** ** vmcnet/physics/energy.py *)

Section laplacian_psi_over_psi.

Variable grad_log_psi :
  forall T : Type, Numeric T -> pytree T -> ndarray T -> result (ndarray T).
Variable params : pytree float.
Variable x : ndarray float.

(** Flattened input to flattened output version of [grad_log_psi]; the
    parameters are constants of the traced computation. *)
Definition flattened_grad_log_psi_of_flat_x (x_shape : list nat)
  : forall T : Type, Numeric T -> list T -> result (list T) :=
  fun T num flat_x_in =>
    x_in <- jnp.reshape flat_x_in x_shape ;;
    grad_log_psi_out <- grad_log_psi T num (map const params) x_in ;;
    Return (jnp.ravel grad_log_psi_out).

Definition step_fn (x_shape : list nat) (flat_x : list float)
    (identity_mat : list (list float)) (carry : nat * float)
  : result (nat * float) :=
  let i := fst carry in
  row <- getitem identity_mat i ;;
  '(primals, tangents) <-
    jax.jvp (flattened_grad_log_psi_of_flat_x x_shape) flat_x row ;;
  primal <- getitem primals i ;;
  tangent <- getitem tangents i ;;
  Return (S i, F.add (F.add (snd carry) (F.mul primal primal)) tangent).

Definition laplacian_psi_over_psi : result float :=
  let x_shape := shape x in
  let flat_x := jnp.ravel x in
  let n := length flat_x in
  let identity_mat := jnp.eye n in
  out <- jax.lax_scan (step_fn x_shape flat_x identity_mat) (O, Fin 0) n ;;
  Return (snd out).

End laplacian_psi_over_psi.

Fixpoint mapM {A B : Type} (f : A -> result B) (l : list A)
  : result (list B) :=
  match l with
  | [] => Return []
  | a :: l' => b <- f a ;; bs <- mapM f l' ;; Return (b :: bs)
  end.

Section create_value_and_grad_energy_fn.

(** [utils.distribute.pmean_if_pmap], which is not among the sources: the
    mean over the workers of a pmap, and the identity outside one. *)
Variable pmean_if_pmap : float -> float.

Variable log_psi_apply :
  forall T : Type, Numeric T -> pytree T -> ndarray T -> result (list T).
Variable local_energy_fn :
  pytree float -> ndarray float -> result (list float).
(** The Python int [nchains] enters the arithmetic exactly here; the
    conversion through the 32-bit integers that jax applies to it, and
    that raises outside their range, is in [B32.compute_energy_data]. *)
Variable nchains : Z.

Definition energy_data : Type := (float * (float * list float))%type.

Definition compute_energy_data (params : pytree float)
    (positions : ndarray float) : result energy_data :=
  local_energies <- local_energy_fn params positions ;;
  let energy := pmean_if_pmap (jnp.mean local_energies) in
  let variance :=
    F.div
      (F.mul
         (pmean_if_pmap
            (jnp.mean
               (jnp.square (jnp.subtract_scalar local_energies energy))))
         (F.of_Z nchains))
      (F.of_Z (nchains - 1)) in
  (* adjust by n / (n - 1) to get an unbiased estimator *)
  let aux_data := (variance, local_energies) in
  Return (energy, aux_data).

Definition compute_energy_data_jvp
    (primals tangents : pytree float * ndarray float)
  : result (energy_data * energy_data) :=
  let '(params, positions) := primals in
  '(energy, aux_data) <- compute_energy_data params positions ;;
  let '(_, local_energies) := aux_data in
  '(_, psi_tangents) <- jax.jvp2 log_psi_apply primals tangents ;;
  let primals_out := (energy, aux_data) in
  d <- jnp.dot psi_tangents (jnp.subtract_scalar local_energies energy) ;;
  let tangents_out := (F.mul (Fin 2) d, aux_data) in
  Return (primals_out, tangents_out).

(** [jax.value_and_grad(compute_energy_data, argnums=0, has_aux=True)].
    The differentiation rule above is linear in the tangents, so the
    gradient with respect to the parameters is read off leaf by leaf: its
    entry [i] is the tangent of the energy along the [i]-th unit tangent
    of the parameters, the positions being held fixed. *)
Definition energy_data_val_and_grad (params : pytree float)
    (positions : ndarray float) : result (energy_data * pytree float) :=
  value <- compute_energy_data params positions ;;
  let zero_positions :=
    mk_ndarray (shape positions) (map (fun _ => Fin 0) (data positions)) in
  grad <- mapM (fun i =>
                  '(_, tangents_out) <-
                    compute_energy_data_jvp
                      (params, positions)
                      (jnp.eye_row (length params) i, zero_positions) ;;
                  Return (fst tangents_out))
               (seq 0 (length params)) ;;
  Return (value, grad).

Definition create_value_and_grad_energy_fn := energy_data_val_and_grad.

End create_value_and_grad_energy_fn.


(* ================================================================== *)
(** ** The same code in IEEE binary32 arithmetic *)

Module B32.

Definition prec : Z := 24.
Definition emax : Z := 128.

(** A binary32 number: a signed zero, a signed infinity, NaN, or
    [(-1)^s * m * 2^e] with a mantissa [m] of at most 24 bits. *)
Definition f32 : Type := SpecFloat.spec_float.

Definition nan : f32 := SpecFloat.S754_nan.
Definition infinity : f32 := SpecFloat.S754_infinity false.

Definition add : f32 -> f32 -> f32 := SpecFloat.SFadd prec emax.
Definition sub : f32 -> f32 -> f32 := SpecFloat.SFsub prec emax.
Definition mul : f32 -> f32 -> f32 := SpecFloat.SFmul prec emax.
Definition div : f32 -> f32 -> f32 := SpecFloat.SFdiv prec emax.
Definition neg : f32 -> f32 := SpecFloat.SFopp.
Definition ltb : f32 -> f32 -> bool := SpecFloat.SFltb.
Definition gtb (x y : f32) : bool := ltb y x.
Definition leb : f32 -> f32 -> bool := SpecFloat.SFleb.
Definition eqb : f32 -> f32 -> bool := SpecFloat.SFeqb.

(** The binary32 number nearest to an integer. *)
Definition of_Z (z : Z) : f32 :=
  SpecFloat.binary_normalize prec emax z 0 false.

Definition of_nat (n : nat) : f32 := of_Z (Z.of_nat n).

(** [2^k] for [-126 <= k <= 127]. *)
Definition pow2 (k : Z) : f32 :=
  SpecFloat.S754_finite false 8388608 (k - 23).

Definition is_finite (x : f32) : bool :=
  match x with
  | SpecFloat.S754_zero _ | SpecFloat.S754_finite _ _ _ => true
  | _ => false
  end.

(** A Python int used in arithmetic with a binary32 array: jax converts it
    through the 32-bit integers. *)
Definition of_python_int (z : Z) : result f32 :=
  if ((- 2147483648 <=? z) && (z <? 2147483648))%Z
  then Return (of_Z z)
  else Raise OverflowError.

Section Arrays.

(** The exponential on finite arguments is the platform's: IEEE does not
    fix its rounding.  It is not needed where the code is evaluated
    below. *)
Variable exp_finite : f32 -> f32.

Definition exp1 (x : f32) : f32 :=
  match x with
  | SpecFloat.S754_nan => nan
  | SpecFloat.S754_infinity false => infinity
  | SpecFloat.S754_infinity true => SpecFloat.S754_zero false
  | _ => exp_finite x
  end.

Definition square (x : list f32) : list f32 := map (fun v => mul v v) x.

Definition exp (x : list f32) : list f32 := map exp1 x.

Definition scalar_multiply (c : f32) (x : list f32) : list f32 :=
  map (mul c) x.

Definition subtract_scalar (x : list f32) (c : f32) : list f32 :=
  map (fun v => sub v c) x.

Definition equal_scalar (x : list f32) (c : f32) : list bool :=
  map (fun v => eqb v c) x.

Definition divide (x y : list f32) : result (list f32) := broadcast2 div x y.

Definition subtract (x y : list f32) : result (list f32) :=
  broadcast2 sub x y.

Definition less (x y : list f32) : result (list bool) := broadcast2 ltb x y.

Definition greater (x y : list f32) : result (list bool) :=
  broadcast2 gtb x y.

Definition ones_like {A : Type} (x : list A) : list f32 :=
  map (fun _ => of_Z 1) x.

Definition where_ (cond : list bool) (x y : list f32) : result (list f32) :=
  xy <- broadcast2 (fun a b => (a, b)) x y ;;
  broadcast2 (fun (c : bool) (p : f32 * f32) =>
                if c then fst p else snd p) cond xy.

(** Sums are accumulated in the order of the entries. *)
Definition sum (x : list f32) : f32 := fold_left add x (of_Z 0).

Definition mean (x : list f32) : f32 := div (sum x) (of_nat (length x)).

Definition dot (x y : list f32) : result f32 :=
  if Nat.eqb (length x) (length y)
  then Return (sum (zip_with mul x y))
  else Raise TypeError.

Definition metropolis_symmetric_acceptance
    (amplitude proposed_amplitude : list f32) (logabs : bool)
  : result (list f32) :=
  if negb logabs then
    let prob_old := square amplitude in
    let prob_new := square proposed_amplitude in
    ratio <- divide prob_new prob_old ;;
    (* safe division by zero *)
    lt <- less prob_old prob_new ;;
    cond <- jnp.logical_or lt (equal_scalar prob_old (of_Z 0)) ;;
    ratio <- where_ cond (ones_like ratio) ratio ;;
    Return ratio
  else
    let log_prob_old := scalar_multiply (of_Z 2) amplitude in
    let log_prob_new := scalar_multiply (of_Z 2) proposed_amplitude in
    (* avoid overflow if log_prob_new - log_prob_old is large *)
    gt <- greater log_prob_new log_prob_old ;;
    diff <- subtract log_prob_new log_prob_old ;;
    where_ gt (ones_like log_prob_new) (exp diff).

End Arrays.

(** Traced functions, as [Numeric] is for exact arithmetic. *)
Class Traced (T : Type) : Type := {
  tconst : f32 -> T;
  tadd : T -> T -> T;
  tsub : T -> T -> T;
  tmul : T -> T -> T;
  tneg : T -> T
}.

#[export] Instance Traced_f32 : Traced f32 := {
  tconst := fun c => c;
  tadd := add;
  tsub := sub;
  tmul := mul;
  tneg := neg
}.

Definition dual32 : Type := (f32 * f32)%type.

#[export] Instance Traced_dual32 : Traced dual32 := {
  tconst := fun c => (c, of_Z 0);
  tadd := fun x y => (add (fst x) (fst y), add (snd x) (snd y));
  tsub := fun x y => (sub (fst x) (fst y), sub (snd x) (snd y));
  tmul := fun x y =>
            (mul (fst x) (fst y),
             add (mul (snd x) (fst y)) (mul (fst x) (snd y)));
  tneg := fun x => (neg (fst x), neg (snd x))
}.

Definition with_tangents (primals tangents : list f32)
  : result (list dual32) :=
  if Nat.eqb (length primals) (length tangents)
  then Return (combine primals tangents)
  else Raise TypeError.

Definition jvp2
    (f : forall T : Type, Traced T -> pytree T -> ndarray T ->
                          result (list T))
    (primals tangents : pytree f32 * ndarray f32)
  : result (list f32 * list f32) :=
  let '(params, x) := primals in
  let '(dparams, dx) := tangents in
  p <- with_tangents params dparams ;;
  d <- with_tangents (data x) (data dx) ;;
  out <- f dual32 Traced_dual32 p (mk_ndarray (shape x) d) ;;
  Return (map fst out, map snd out).

Section create_value_and_grad_energy_fn.

Variable pmean_if_pmap : f32 -> f32.
Variable log_psi_apply :
  forall T : Type, Traced T -> pytree T -> ndarray T -> result (list T).
Variable local_energy_fn : pytree f32 -> ndarray f32 -> result (list f32).
Variable nchains : Z.

Definition energy_data : Type := (f32 * (f32 * list f32))%type.

Definition compute_energy_data (params : pytree f32)
    (positions : ndarray f32) : result energy_data :=
  local_energies <- local_energy_fn params positions ;;
  let energy := pmean_if_pmap (mean local_energies) in
  let mean_square :=
    pmean_if_pmap (mean (square (subtract_scalar local_energies energy))) in
  n <- of_python_int nchains ;;
  n_minus_1 <- of_python_int (nchains - 1) ;;
  let variance := div (mul mean_square n) n_minus_1 in
  (* adjust by n / (n - 1) to get an unbiased estimator *)
  let aux_data := (variance, local_energies) in
  Return (energy, aux_data).

Definition compute_energy_data_jvp
    (primals tangents : pytree f32 * ndarray f32)
  : result (energy_data * energy_data) :=
  let '(params, positions) := primals in
  '(energy, aux_data) <- compute_energy_data params positions ;;
  let '(_, local_energies) := aux_data in
  '(_, psi_tangents) <- jvp2 log_psi_apply primals tangents ;;
  let primals_out := (energy, aux_data) in
  d <- dot psi_tangents (subtract_scalar local_energies energy) ;;
  let tangents_out := (mul (of_Z 2) d, aux_data) in
  Return (primals_out, tangents_out).

End create_value_and_grad_energy_fn.

End B32.


(* ================================================================== *)
(** ** Derived notions used by the statements below *)

(** What [metropolis_symmetric_acceptance] computes at one pair of entries:
    its array operations, read at a single position. *)
Definition acceptance_entry (logabs : bool) (amplitude proposed : float)
  : float :=
  if negb logabs then
    let prob_old := F.mul amplitude amplitude in
    let prob_new := F.mul proposed proposed in
    if F.ltb prob_old prob_new || F.eqb prob_old (Fin 0)
    then Fin 1
    else F.div prob_new prob_old
  else
    let log_prob_old := F.mul (Fin 2) amplitude in
    let log_prob_new := F.mul (Fin 2) proposed in
    if F.gtb log_prob_new log_prob_old
    then Fin 1
    else F.exp (F.sub log_prob_new log_prob_old).

(** The raw-amplitude rule in the words of the specification: the ratio is
    forced to 1 where [probOld == 0] or [probNew >= probOld], and is
    [probNew / probOld] elsewhere. *)
Definition spec_raw_ratio (amplitude proposedAmplitude : R) : R :=
  let probOld := amplitude * amplitude in
  let probNew := proposedAmplitude * proposedAmplitude in
  if Req_dec_T probOld 0 then 1
  else if Rge_dec probNew probOld then 1
  else probNew / probOld.

(** [x >= y], false as soon as one side is NaN. *)
Definition geb (x y : float) : bool := F.ltb y x || F.eqb x y.

Definition is_finiteb (x : float) : bool :=
  match x with
  | Fin _ => true
  | _ => false
  end.

(** The raw-amplitude rule the code follows, on the two probabilities as
    computed: 1 where [probOld == 0], or [probNew >= probOld] with
    [probOld] finite, and [probNew / probOld] elsewhere. *)
Definition raw_rule (probOld probNew : float) : float :=
  if F.eqb probOld (Fin 0) || (geb probNew probOld && is_finiteb probOld)
  then Fin 1
  else F.div probNew probOld.

(** The largest finite binary32 number, [(2 - 2^-23) * 2^127]. *)
Definition float32_max : R := (2 - / 2 ^ 23) * 2 ^ 127.

(** An amplitude is in range when it is finite and what the acceptance rule
    first computes from it does not overflow in binary32 (hence in
    binary64): its square for a raw amplitude, its double for a log
    amplitude. *)
Definition amplitude_in_range (logabs : bool) (amplitude : float) : Prop :=
  match amplitude with
  | Fin r =>
      if logabs then 2 * Rabs r <= float32_max else r * r <= float32_max
  | _ => False
  end.

(** Shapes of one-dimensional arrays that broadcast together. *)
Definition broadcastable (n m : nat) : Prop :=
  n = m \/ n = 1%nat \/ m = 1%nat.

(** The sum of the entries. *)
Definition Rsum (xs : list R) : R := fold_right Rplus 0 xs.

(** The sum of the squares of the entries. *)
Definition norm2 (xs : list R) : R :=
  fold_right (fun v acc => v * v + acc) 0 xs.

(** The gradient of [log|psi|] for [psi(x) = exp(-|x|^2 / 2)]: [-x]. *)
Definition gaussian_grad_log_psi
  : forall T : Type, Numeric T -> pytree T -> ndarray T -> result (ndarray T) :=
  fun T num _ x => Return (mk_ndarray (shape x) (map nneg (data x))).

(** One more entry [x] in the sum of the [x_i * x_i - 1], as the scan of
    the Laplacian adds it to its carry. *)
Definition add_gaussian_term (carry x : float) : float :=
  F.add (F.add carry (F.mul x x)) (Fin (- 1)).


(* ================================================================== *)
(** ** Facts about scalars *)

Lemma ltb_Fin_true (a b : R) : a < b -> F.ltb (Fin a) (Fin b) = true.
Proof.
  intros H. simpl. destruct (Rcompare_spec a b); trivial; lra.
Qed.

Lemma ltb_Fin_false (a b : R) : ~ a < b -> F.ltb (Fin a) (Fin b) = false.
Proof.
  intros H. simpl. destruct (Rcompare_spec a b); trivial; lra.
Qed.

Lemma eqb_Fin_true (a b : R) : a = b -> F.eqb (Fin a) (Fin b) = true.
Proof.
  intros H. simpl. destruct (Rcompare_spec a b); trivial; lra.
Qed.

Lemma eqb_Fin_false (a b : R) : a <> b -> F.eqb (Fin a) (Fin b) = false.
Proof.
  intros H. simpl. destruct (Rcompare_spec a b); trivial; lra.
Qed.

Lemma div_Fin (a b : R) : b <> 0 -> F.div (Fin a) (Fin b) = Fin (a / b).
Proof.
  intros H. simpl. destruct (Req_dec_T b 0); [contradiction | reflexivity].
Qed.


Lemma is_finite_Fin (x : float) : is_finite x <-> exists r, x = Fin r.
Proof.
  split.
  - destruct x as [r | | |]; simpl; try tauto. intros _. now exists r.
  - intros [r ->]. exact I.
Qed.

Lemma Forall_is_finite (xs : list float) :
  Forall is_finite xs <-> exists rs, xs = map Fin rs.
Proof.
  split.
  - induction 1 as [| x xs Hx _ [rs ->]].
    + now exists [].
    + apply is_finite_Fin in Hx. destruct Hx as [r ->]. now exists (r :: rs).
  - intros [rs ->]. induction rs; simpl; constructor; simpl; trivial.
Qed.

(* ================================================================== *)
(** ** Facts about broadcasting *)

Lemma length_zip_with {A B C : Type} (f : A -> B -> C) xs ys :
  length (zip_with f xs ys) = Nat.min (length xs) (length ys).
Proof.
  revert ys. induction xs as [| x xs IH]; intros [| y ys]; simpl; auto.
Qed.

Lemma broadcast2_same {A B C : Type} (f : A -> B -> C) xs ys :
  length xs = length ys -> broadcast2 f xs ys = Return (zip_with f xs ys).
Proof.
  intros H. unfold broadcast2. now rewrite H, Nat.eqb_refl.
Qed.

Lemma broadcast2_left1 {A B C : Type} (f : A -> B -> C) x ys :
  broadcast2 f [x] ys = Return (map (f x) ys).
Proof.
  unfold broadcast2. destruct ys as [| y [| y' ys]]; reflexivity.
Qed.

Lemma broadcast2_right1 {A B C : Type} (f : A -> B -> C) xs y :
  broadcast2 f xs [y] = Return (map (fun x => f x y) xs).
Proof.
  unfold broadcast2. destruct xs as [| x [| x' xs]]; reflexivity.
Qed.

Lemma broadcast2_raise {A B C : Type} (f : A -> B -> C) xs ys :
  ~ broadcastable (length xs) (length ys) ->
  broadcast2 f xs ys = Raise TypeError.
Proof.
  unfold broadcastable, broadcast2. intros H.
  destruct (Nat.eqb_spec (length xs) (length ys)) as [E | _]; [tauto |].
  destruct xs as [| x [| x' xs]], ys as [| y [| y' ys]]; simpl in *;
    trivial; exfalso; apply H; auto.
Qed.

Lemma broadcast2_returns {A B C : Type} (f : A -> B -> C) xs ys zs :
  broadcast2 f xs ys = Return zs ->
  broadcastable (length xs) (length ys) /\
  Forall (fun z => exists x y, In x xs /\ In y ys /\ z = f x y) zs.
Proof.
  unfold broadcastable, broadcast2.
  destruct (Nat.eqb_spec (length xs) (length ys)) as [E | NE].
  - intros [= <-]. split; [auto |]. clear E.
    revert ys. induction xs as [| x xs IH]; intros [| y ys]; simpl;
      try constructor.
    + exists x, y. auto.
    + eapply Forall_impl; [| apply IH].
      intros z (x0 & y0 & ? & ? & ?). exists x0, y0. auto.
  - destruct xs as [| x [| x' xs]], ys as [| y [| y' ys]]; simpl in *;
      try discriminate; intros [= <-]; (split; [auto |]);
      repeat constructor.
    + now elim NE.
    + exists x, y. auto.
    + exists x, y'. auto.
    + apply Forall_forall. intros z Hz. apply in_map_iff in Hz.
      destruct Hz as (y0 & <- & Hy). exists x, y0. auto.
    + exists x, y. auto.
    + exists x', y. auto.
    + apply Forall_forall. intros z Hz. apply in_map_iff in Hz.
      destruct Hz as (x0 & <- & Hx). exists x0, y. auto.
Qed.

(* ================================================================== *)
(** ** The acceptance rule, entry by entry *)

Ltac list_step :=
  cbn [zip_with map length fst snd jnp.square jnp.scalar_multiply
       jnp.equal_scalar jnp.ones_like jnp.exp jnp.subtract_scalar] in *.

Ltac entry_step IH :=
  f_equal;
  try (apply IH; lia);
  try (match goal with
       | |- context [if ?c then _ else _] => destruct c
       end; reflexivity).

Ltac same_length :=
  unfold jnp.square, jnp.scalar_multiply, jnp.equal_scalar, jnp.ones_like,
    jnp.exp;
  repeat (rewrite ?length_map, ?length_zip_with);
  simpl; lia.

Lemma metropolis_symmetric_acceptance_same (a b : list float) (logabs : bool) :
  length a = length b ->
  metropolis_symmetric_acceptance a b logabs =
  Return (zip_with (acceptance_entry logabs) a b).
Proof.
  intros E. unfold metropolis_symmetric_acceptance, acceptance_entry.
  destruct logabs; simpl negb; cbv iota.
  - unfold jnp.greater, jnp.subtract, jnp.where_.
    rewrite (broadcast2_same F.gtb) by same_length. cbn [bind].
    rewrite (broadcast2_same F.sub) by same_length. cbn [bind].
    rewrite (broadcast2_same (fun a0 b0 => (a0, b0))) by same_length.
    cbn [bind].
    rewrite broadcast2_same by same_length.
    f_equal. revert b E.
    induction a as [| x a IH]; intros [| y b] E; list_step;
      try discriminate; trivial.
    entry_step IH.
  - unfold jnp.divide, jnp.less, jnp.logical_or, jnp.where_.
    rewrite (broadcast2_same F.div) by same_length. cbn [bind].
    rewrite (broadcast2_same F.ltb) by same_length. cbn [bind].
    rewrite (broadcast2_same orb) by same_length. cbn [bind].
    rewrite (broadcast2_same (fun a0 b0 => (a0, b0))) by same_length.
    cbn [bind].
    rewrite broadcast2_same by same_length. cbn [bind].
    f_equal. revert b E.
    induction a as [| x a IH]; intros [| y b] E; list_step;
      try discriminate; trivial.
    entry_step IH.
Qed.

Lemma metropolis_symmetric_acceptance_left1 (x : float) (b : list float)
    (logabs : bool) :
  metropolis_symmetric_acceptance [x] b logabs =
  Return (map (acceptance_entry logabs x) b).
Proof.
  unfold metropolis_symmetric_acceptance, acceptance_entry.
  destruct logabs; simpl negb; cbv iota.
  - unfold jnp.greater, jnp.subtract, jnp.where_, jnp.scalar_multiply.
    cbn [map]. rewrite !broadcast2_right1. cbn [bind].
    rewrite (broadcast2_same (fun a0 b0 => (a0, b0))) by same_length.
    cbn [bind].
    rewrite broadcast2_same by same_length.
    f_equal. induction b as [| y b IH]; list_step; trivial.
    entry_step IH.
  - unfold jnp.divide, jnp.less, jnp.logical_or, jnp.where_, jnp.square,
      jnp.equal_scalar.
    cbn [map]. rewrite broadcast2_right1, broadcast2_left1. cbn [bind].
    rewrite broadcast2_right1. cbn [bind].
    rewrite (broadcast2_same (fun a0 b0 => (a0, b0))) by same_length.
    cbn [bind].
    rewrite broadcast2_same by same_length. cbn [bind].
    f_equal. induction b as [| y b IH]; list_step; trivial.
    entry_step IH.
Qed.

Lemma metropolis_symmetric_acceptance_right1 (a : list float) (y : float)
    (logabs : bool) :
  metropolis_symmetric_acceptance a [y] logabs =
  Return (map (fun x => acceptance_entry logabs x y) a).
Proof.
  unfold metropolis_symmetric_acceptance, acceptance_entry.
  destruct logabs; simpl negb; cbv iota.
  - unfold jnp.greater, jnp.subtract, jnp.where_, jnp.scalar_multiply.
    cbn [map]. rewrite !broadcast2_left1. cbn [bind].
    cbn [jnp.ones_like map].
    rewrite (broadcast2_left1 (fun a0 b0 => (a0, b0))).
    cbn [bind].
    rewrite broadcast2_same by same_length.
    f_equal. induction a as [| x a IH]; list_step; trivial.
    entry_step IH.
  - unfold jnp.divide, jnp.less, jnp.logical_or, jnp.where_, jnp.square,
      jnp.equal_scalar.
    cbn [map]. rewrite broadcast2_left1, broadcast2_right1. cbn [bind].
    rewrite (broadcast2_same orb) by same_length. cbn [bind].
    rewrite (broadcast2_same (fun a0 b0 => (a0, b0))) by same_length.
    cbn [bind].
    rewrite broadcast2_same by same_length. cbn [bind].
    f_equal. induction a as [| x a IH]; list_step; trivial.
    entry_step IH.
Qed.

Lemma metropolis_symmetric_acceptance_raise (a b : list float) (logabs : bool) :
  ~ broadcastable (length a) (length b) ->
  metropolis_symmetric_acceptance a b logabs = Raise TypeError.
Proof.
  intros H. unfold metropolis_symmetric_acceptance.
  assert (H' : ~ broadcastable (length b) (length a))
    by (unfold broadcastable in *; intuition congruence).
  destruct logabs; simpl negb; cbv iota.
  - unfold jnp.greater, jnp.scalar_multiply.
    rewrite broadcast2_raise by (rewrite !length_map; exact H').
    reflexivity.
  - unfold jnp.divide, jnp.square.
    rewrite broadcast2_raise by (rewrite !length_map; exact H').
    reflexivity.
Qed.

(** The array function is its entry rule, broadcast. *)
Lemma metropolis_symmetric_acceptance_entries (a b : list float)
    (logabs : bool) :
  metropolis_symmetric_acceptance a b logabs =
  broadcast2 (acceptance_entry logabs) a b.
Proof.
  destruct (Nat.eq_dec (length a) (length b)) as [E | NE].
  - rewrite broadcast2_same by exact E.
    now apply metropolis_symmetric_acceptance_same.
  - destruct (Nat.eq_dec (length a) 1) as [A1 | A1].
    + destruct a as [| x [| x' a]]; try discriminate.
      rewrite broadcast2_left1. apply metropolis_symmetric_acceptance_left1.
    + destruct (Nat.eq_dec (length b) 1) as [B1 | B1].
      * destruct b as [| y [| y' b]]; try discriminate.
        rewrite broadcast2_right1.
        apply metropolis_symmetric_acceptance_right1.
      * assert (H : ~ broadcastable (length a) (length b))
          by (unfold broadcastable; intuition).
        rewrite broadcast2_raise by exact H.
        now apply metropolis_symmetric_acceptance_raise.
Qed.

Lemma broadcast2_map {A B A' B' C : Type} (f : A' -> B' -> C)
    (g : A -> A') (h : B -> B') (xs : list A) (ys : list B) :
  broadcast2 f (map g xs) (map h ys) =
  broadcast2 (fun x y => f (g x) (h y)) xs ys.
Proof.
  unfold broadcast2. rewrite !length_map.
  destruct (Nat.eqb (length xs) (length ys)).
  - f_equal. revert ys.
    induction xs as [| x xs IH]; intros [| y ys]; simpl; trivial.
    now rewrite IH.
  - destruct xs as [| x [| x' xs]], ys as [| y [| y' ys]]; simpl; trivial;
      now rewrite ?map_map.
Qed.

Lemma broadcast2_ext {A B C : Type} (f g : A -> B -> C) xs ys :
  (forall x y, f x y = g x y) -> broadcast2 f xs ys = broadcast2 g xs ys.
Proof.
  intros H. unfold broadcast2.
  destruct (Nat.eqb (length xs) (length ys)).
  - f_equal. revert ys.
    induction xs as [| x xs IH]; intros [| y ys]; simpl; trivial.
    now rewrite H, IH.
  - destruct xs as [| x [| x' xs]], ys as [| y [| y' ys]]; cbv beta iota;
      trivial; f_equal; apply map_ext; intros; apply H.
Qed.

(** *** The entry rule on finite amplitudes *)

Lemma raw_entry_spec (a b : R) :
  acceptance_entry false (Fin a) (Fin b) = Fin (spec_raw_ratio a b).
Proof.
  unfold acceptance_entry, spec_raw_ratio. cbn [negb F.mul].
  destruct (Req_dec_T (a * a) 0) as [Z | NZ].
  - rewrite (eqb_Fin_true _ _ Z). now rewrite orb_true_r.
  - rewrite (eqb_Fin_false _ _ NZ), orb_false_r.
    destruct (Rge_dec (b * b) (a * a)) as [G | NG].
    + destruct (Rlt_dec (a * a) (b * b)) as [L | NL].
      * now rewrite (ltb_Fin_true _ _ L).
      * rewrite (ltb_Fin_false _ _ NL), (div_Fin _ _ NZ).
        f_equal. replace (b * b) with (a * a) by lra.
        unfold Rdiv. now rewrite Rinv_r.
    + rewrite ltb_Fin_false by lra. now rewrite (div_Fin _ _ NZ).
Qed.

Lemma log_entry_spec (a b : R) :
  acceptance_entry true (Fin a) (Fin b) =
  Fin (if Rlt_dec a b then 1 else exp (2 * b - 2 * a)).
Proof.
  unfold acceptance_entry, F.gtb. cbn [negb F.mul F.sub F.neg F.add F.exp].
  destruct (Rlt_dec a b) as [L | NL].
  - rewrite ltb_Fin_true by lra. reflexivity.
  - rewrite ltb_Fin_false by lra. reflexivity.
Qed.

Lemma exp_square (a : R) : exp a * exp a = exp (2 * a).
Proof.
  rewrite <- exp_plus. f_equal. lra.
Qed.

Lemma entry_unit_interval (logabs : bool) (a b : R) :
  in_unit_interval (acceptance_entry logabs (Fin a) (Fin b)).
Proof.
  destruct logabs.
  - rewrite log_entry_spec. simpl.
    destruct (Rlt_dec a b) as [L | NL]; [lra |].
    split; [left; apply exp_pos |].
    destruct (Req_dec_T a b) as [-> | NE].
    + replace (2 * b - 2 * b) with 0 by lra. rewrite exp_0. lra.
    + left. rewrite <- exp_0. apply exp_increasing. lra.
  - rewrite raw_entry_spec. unfold spec_raw_ratio. simpl.
    destruct (Req_dec_T (a * a) 0) as [Z | NZ]; [lra |].
    destruct (Rge_dec (b * b) (a * a)) as [G | NG]; [lra |].
    assert (0 < a * a) by nra. assert (0 <= b * b) by nra.
    split.
    + apply Rmult_le_pos; [assumption | left; now apply Rinv_0_lt_compat].
    + apply Rmult_le_reg_r with (a * a); [assumption |].
      unfold Rdiv. rewrite Rmult_assoc, Rinv_l by assumption. lra.
Qed.

Lemma entry_exp_agree (a b : R) :
  acceptance_entry false (Fin (exp a)) (Fin (exp b)) =
  acceptance_entry true (Fin a) (Fin b).
Proof.
  rewrite raw_entry_spec, log_entry_spec. f_equal.
  unfold spec_raw_ratio. rewrite !exp_square.
  pose proof (exp_pos (2 * a)) as Pa.
  destruct (Req_dec_T (exp (2 * a)) 0) as [Z | _]; [lra |].
  destruct (Rge_dec (exp (2 * b)) (exp (2 * a))) as [G | NG];
    destruct (Rlt_dec a b) as [L | NL]; trivial.
  - assert (E : a = b).
    { destruct (Req_dec_T a b) as [E | NE]; trivial.
      assert (exp (2 * b) < exp (2 * a)) by (apply exp_increasing; lra).
      lra. }
    subst b. replace (2 * a - 2 * a) with 0 by lra. now rewrite exp_0.
  - exfalso. apply NG. left. apply exp_increasing. lra.
  - unfold Rminus, Rdiv. now rewrite exp_plus, exp_Ropp.
Qed.

Lemma broadcast2_raise_inv {A B C : Type} (f : A -> B -> C) xs ys e :
  broadcast2 f xs ys = Raise e -> ~ broadcastable (length xs) (length ys).
Proof.
  unfold broadcastable, broadcast2.
  destruct (Nat.eqb_spec (length xs) (length ys)) as [E | NE];
    [discriminate |].
  destruct xs as [| x [| x' xs]], ys as [| y [| y' ys]]; simpl in *;
    try discriminate; intros _ [H | [H | H]]; try discriminate;
    now apply NE.
Qed.


(* ================================================================== *)
(** ** Properties of [metropolis_symmetric_acceptance] *)

Lemma float32_max_lower : 32 <= float32_max.
Proof.
  unfold float32_max.
  assert (H23 : 1 <= 2 ^ 23) by (apply pow_R1_Rle; lra).
  assert (Hinv : / 2 ^ 23 <= 1).
  { rewrite <- Rinv_1. apply Rinv_le_contravar; lra. }
  assert (H127 : 2 ^ 5 <= 2 ^ 127) by (apply Rle_pow; [lra | lia]).
  assert (H5 : 2 ^ 5 = 32) by (simpl; lra).
  assert (P : 0 < 2 ^ 127) by (apply pow_lt; lra).
  nra.
Qed.

Lemma amplitude_in_range_finite (logabs : bool) (x : float) :
  amplitude_in_range logabs x -> exists r, x = Fin r.
Proof.
  destruct x as [r | | |]; simpl; try tauto. intros _. now exists r.
Qed.

(** C2, as the code has it.  On finite amplitudes in range (their squares,
    for raw amplitudes, or their doubles, for log amplitudes, do not
    overflow) the acceptance rule returns, for shapes that broadcast
    together, an array all of whose entries are finite numbers of the
    interval [0,1], an old probability of zero included; it raises only on
    shapes that do not broadcast. *)
Theorem acceptance_finite_in_unit_interval
    (amplitude proposed_amplitude : list float) (logabs : bool) :
  Forall (amplitude_in_range logabs) amplitude ->
  Forall (amplitude_in_range logabs) proposed_amplitude ->
  match metropolis_symmetric_acceptance amplitude proposed_amplitude logabs with
  | Return ratio => Forall in_unit_interval ratio
  | Raise _ => ~ broadcastable (length amplitude) (length proposed_amplitude)
  end.
Proof.
  intros Ha Hb. rewrite metropolis_symmetric_acceptance_entries.
  destruct (broadcast2 _ _ _) as [ratio | e] eqn:E.
  - apply broadcast2_returns in E. destruct E as [_ E].
    eapply Forall_impl; [| exact E].
    intros z (x & y & Hx & Hy & ->).
    rewrite Forall_forall in Ha, Hb.
    destruct (amplitude_in_range_finite logabs x (Ha x Hx)) as [a ->].
    destruct (amplitude_in_range_finite logabs y (Hb y Hy)) as [b ->].
    apply entry_unit_interval.
  - now apply broadcast2_raise_inv in E.
Qed.

Lemma acceptance_finite_in_unit_interval_witness :
  Forall (amplitude_in_range false) [Fin 0; Fin 3] /\
  Forall (amplitude_in_range false) [Fin 1; Fin 2] /\
  match metropolis_symmetric_acceptance [Fin 0; Fin 3] [Fin 1; Fin 2] false with
  | Return ratio => Forall in_unit_interval ratio
  | Raise _ => ~ broadcastable 2 2
  end.
Proof.
  pose proof float32_max_lower as M.
  assert (Ha : Forall (amplitude_in_range false) [Fin 0; Fin 3])
    by (repeat constructor; simpl; lra).
  assert (Hb : Forall (amplitude_in_range false) [Fin 1; Fin 2])
    by (repeat constructor; simpl; lra).
  split; [exact Ha |]. split; [exact Hb |].
  exact (acceptance_finite_in_unit_interval
           [Fin 0; Fin 3] [Fin 1; Fin 2] false Ha Hb).
Defined.

(** C2 as stated fails in binary32.  The finite raw amplitude [2^64] has
    the square [2^128], which overflows to infinity, and the ratio
    [inf / inf] is NaN; the finite log amplitude [2^127] has the double
    [2^128], and [exp(inf - inf)] is NaN.  No exponential of a finite
    number is taken on the way: the one passed is never called. *)
Lemma acceptance_of_finite_amplitudes_is_nan :
  B32.is_finite (B32.pow2 64) = true /\
  B32.metropolis_symmetric_acceptance (fun x => x)
    [B32.pow2 64] [B32.pow2 64] false = Return [B32.nan] /\
  B32.is_finite (B32.pow2 127) = true /\
  B32.metropolis_symmetric_acceptance (fun x => x)
    [B32.pow2 127] [B32.pow2 127] true = Return [B32.nan].
Proof.
  repeat split; vm_compute; reflexivity.
Qed.

(** C3, as the code has it.  For finite reals [a <= b] (the proposed
    amplitude is at least the current one) in range ([2a], [2b] and
    [exp(b)^2] stay, with room to spare, below the largest finite
    number), the acceptance of [exp a], [exp b] as raw amplitudes and the
    acceptance of [a], [b] as log amplitudes are both 1. *)
Theorem acceptance_is_one_when_proposed_not_smaller (a b : R) :
  a <= b ->
  2 * Rabs a <= float32_max ->
  2 * Rabs b <= float32_max ->
  2 * (exp b * exp b) <= float32_max ->
  metropolis_symmetric_acceptance [Fin (exp a)] [Fin (exp b)] false
    = Return [Fin 1] /\
  metropolis_symmetric_acceptance [Fin a] [Fin b] true = Return [Fin 1].
Proof.
  intros H _ _ _.
  assert (E : acceptance_entry true (Fin a) (Fin b) = Fin 1).
  { rewrite log_entry_spec. f_equal.
    destruct (Rlt_dec a b) as [L | NL]; trivial.
    replace (2 * b - 2 * a) with 0 by lra. apply exp_0. }
  rewrite !metropolis_symmetric_acceptance_left1. cbn [map].
  now rewrite entry_exp_agree, E.
Qed.

Lemma acceptance_is_one_when_proposed_not_smaller_witness :
  0 <= 1 /\
  metropolis_symmetric_acceptance [Fin (exp 0)] [Fin (exp 1)] false
    = Return [Fin 1] /\
  metropolis_symmetric_acceptance [Fin 0] [Fin 1] true = Return [Fin 1].
Proof.
  pose proof float32_max_lower as M.
  pose proof exp_le_3 as E3.
  pose proof (exp_pos 1) as E0.
  assert (H : 0 <= 1) by lra.
  assert (Ha : 2 * Rabs 0 <= float32_max) by (rewrite Rabs_R0; lra).
  assert (Hb : 2 * Rabs 1 <= float32_max) by (rewrite Rabs_R1; lra).
  assert (He : 2 * (exp 1 * exp 1) <= float32_max) by nra.
  split; [exact H |].
  exact (acceptance_is_one_when_proposed_not_smaller 0 1 H Ha Hb He).
Defined.

(** C3 as stated fails: with [a = 1 >= b = 0] neither representation
    gives 1 (both give [exp (-2)]). *)
Lemma acceptance_not_one_when_proposed_smaller :
  1 >= 0 /\
  metropolis_symmetric_acceptance [Fin (exp 1)] [Fin (exp 0)] false
    <> Return [Fin 1] /\
  metropolis_symmetric_acceptance [Fin 1] [Fin 0] true <> Return [Fin 1].
Proof.
  assert (E : acceptance_entry true (Fin 1) (Fin 0) <> Fin 1).
  { rewrite log_entry_spec.
    destruct (Rlt_dec 1 0) as [L | NL]; [lra |].
    intros [= H].
    assert (exp (2 * 0 - 2 * 1) < exp 0) by (apply exp_increasing; lra).
    rewrite exp_0 in *. lra. }
  split; [lra |].
  rewrite !metropolis_symmetric_acceptance_left1. cbn [map].
  rewrite entry_exp_agree.
  split; intros [= H]; now apply E.
Qed.

(** C4.  For finite reals the raw-amplitude rule applied to [exp a],
    [exp b] and the log-amplitude rule applied to [a], [b] compute the same
    acceptance ratios, exactly, entry by entry and for every pair of
    shapes. *)
Theorem raw_and_log_acceptance_agree (a b : list R) :
  metropolis_symmetric_acceptance
    (map Fin (map exp a)) (map Fin (map exp b)) false =
  metropolis_symmetric_acceptance (map Fin a) (map Fin b) true.
Proof.
  rewrite !metropolis_symmetric_acceptance_entries, !map_map, !broadcast2_map.
  apply broadcast2_ext. intros x y. apply entry_exp_agree.
Qed.
Lemma raw_entry_rule (x y : float) :
  acceptance_entry false x y = raw_rule (F.mul x x) (F.mul y y).
Proof.
  unfold acceptance_entry, raw_rule, geb. cbn [negb].
  destruct x as [a | | |], y as [b | | |]; cbn [F.mul F.ltb F.eqb F.div
    is_finiteb andb orb]; trivial;
    repeat match goal with
           | |- context [Rcompare ?u ?v] =>
               destruct (Rcompare_spec u v); cbn [orb andb signed_inf CompOpp]
           | |- context [Req_dec_T ?u ?v] =>
               destruct (Req_dec_T u v); cbn [orb andb]
           | |- context [Rlt_dec ?u ?v] =>
               destruct (Rlt_dec u v); cbn [orb andb]
           end;
    trivial; try lra; try (exfalso; nra).
  all: try (f_equal; unfold Rdiv;
            match goal with H : ?u = ?v |- _ => rewrite H end;
            now rewrite Rinv_r).
Qed.

(** C5, as the code has it.  With [logabs = false], for every pair of
    entries, finite or not, with [probOld] and [probNew] the squares as
    computed: the result is 1 whenever [probOld] is zero, or
    [probNew >= probOld] and [probOld] is finite, and is
    [probNew / probOld] otherwise; when both squares are infinite that
    quotient is NaN. *)
Theorem raw_acceptance_matches_spec
    (amplitude proposed_amplitude : list float) :
  metropolis_symmetric_acceptance amplitude proposed_amplitude false =
  broadcast2 (fun a b => raw_rule (F.mul a a) (F.mul b b))
    amplitude proposed_amplitude.
Proof.
  rewrite metropolis_symmetric_acceptance_entries.
  apply broadcast2_ext. intros x y. apply raw_entry_rule.
Qed.

(** C5 as stated fails in binary32.  The squares of the finite amplitudes
    [2^70] and [2^100] both overflow to infinity, so that
    [probNew >= probOld], and the result is NaN, not 1; so it is, in exact
    arithmetic, on amplitudes that are infinite themselves. *)
Lemma raw_acceptance_at_infinite_squares :
  B32.is_finite (B32.pow2 70) = true /\
  B32.is_finite (B32.pow2 100) = true /\
  B32.leb (B32.mul (B32.pow2 70) (B32.pow2 70))
          (B32.mul (B32.pow2 100) (B32.pow2 100)) = true /\
  B32.eqb (B32.mul (B32.pow2 70) (B32.pow2 70)) (B32.of_Z 0) = false /\
  B32.metropolis_symmetric_acceptance (fun x => x)
    [B32.pow2 70] [B32.pow2 100] false = Return [B32.nan] /\
  metropolis_symmetric_acceptance [PosInf] [PosInf] false = Return [NaN].
Proof.
  repeat split; try (vm_compute; reflexivity).
Qed.

(** C10.  The acceptance function made by
    [make_position_amplitude_metropolis_symmetric_acceptance] reads nothing
    but the two amplitude fields: calls that agree on them return the same
    result, whatever the parameters and the positions are. *)
Theorem acceptance_fn_depends_only_on_amplitudes
    (P : Type) (logabs : bool) (params params' : P)
    (data data' proposed_data proposed_data' : PositionAmplitudeData) :
  amplitude data = amplitude data' ->
  amplitude proposed_data = amplitude proposed_data' ->
  make_position_amplitude_metropolis_symmetric_acceptance
    logabs params data proposed_data =
  make_position_amplitude_metropolis_symmetric_acceptance
    logabs params' data' proposed_data'.
Proof.
  intros Ha Hp.
  unfold make_position_amplitude_metropolis_symmetric_acceptance.
  now rewrite Ha, Hp.
Qed.

Lemma acceptance_fn_depends_only_on_amplitudes_witness :
  make_position_amplitude_metropolis_symmetric_acceptance true 0%nat
    (mk_PositionAmplitudeData (mk_ndarray [1%nat] [Fin 1]) [Fin 0])
    (mk_PositionAmplitudeData (mk_ndarray [1%nat] [Fin 2]) [Fin 1]) =
  make_position_amplitude_metropolis_symmetric_acceptance true 7%nat
    (mk_PositionAmplitudeData (mk_ndarray [1%nat] [Fin 3]) [Fin 0])
    (mk_PositionAmplitudeData (mk_ndarray [1%nat] [Fin 4]) [Fin 1]).
Proof.
  exact (acceptance_fn_depends_only_on_amplitudes nat true 0%nat 7%nat
           (mk_PositionAmplitudeData (mk_ndarray [1%nat] [Fin 1]) [Fin 0])
           (mk_PositionAmplitudeData (mk_ndarray [1%nat] [Fin 3]) [Fin 0])
           (mk_PositionAmplitudeData (mk_ndarray [1%nat] [Fin 2]) [Fin 1])
           (mk_PositionAmplitudeData (mk_ndarray [1%nat] [Fin 4]) [Fin 1])
           eq_refl eq_refl).
Defined.


(* ================================================================== *)
(** ** Sums and means of finite arrays *)

Lemma sum_Fin (rs : list R) : jnp.sum (map Fin rs) = Fin (Rsum rs).
Proof.
  unfold jnp.sum.
  induction rs as [| r rs IH]; cbn [map fold_right]; trivial.
  now rewrite IH.
Qed.

Lemma INR_length_pos {A : Type} (l : list A) : l <> [] -> 0 < INR (length l).
Proof.
  destruct l as [| a l]; [congruence |]. intros _.
  apply lt_0_INR. simpl. lia.
Qed.

Lemma mean_Fin (rs : list R) :
  rs <> [] -> jnp.mean (map Fin rs) = Fin (Rsum rs / INR (length rs)).
Proof.
  intros H. unfold jnp.mean, F.of_nat. rewrite sum_Fin, length_map.
  apply div_Fin. pose proof (INR_length_pos rs H). lra.
Qed.

Lemma mean_empty : jnp.mean [] = NaN.
Proof.
  unfold jnp.mean, F.of_nat. simpl.
  destruct (Req_dec_T 0 0) as [_ | H]; [| now elim H].
  destruct (Rcompare_spec 0 0); trivial; lra.
Qed.

Lemma Forall_in_unit_interval (xs : list float) :
  Forall in_unit_interval xs ->
  exists rs, xs = map Fin rs /\ Forall (fun r => 0 <= r <= 1) rs.
Proof.
  induction 1 as [| x xs Hx _ (rs & -> & IH)].
  - exists []. split; [reflexivity | constructor].
  - destruct x as [r | | |]; simpl in Hx; try contradiction.
    exists (r :: rs). split; [reflexivity | now constructor].
Qed.

Lemma Rsum_bounds (rs : list R) :
  Forall (fun r => 0 <= r <= 1) rs -> 0 <= Rsum rs <= INR (length rs).
Proof.
  induction 1 as [| r rs Hr _ IH].
  - simpl. lra.
  - change (length (r :: rs)) with (S (length rs)). rewrite S_INR.
    simpl. lra.
Qed.

Lemma mean_in_unit_interval (xs : list float) :
  xs <> [] -> Forall in_unit_interval xs -> in_unit_interval (jnp.mean xs).
Proof.
  intros NE H. apply Forall_in_unit_interval in H.
  destruct H as (rs & -> & H).
  assert (NE' : rs <> []) by (intros ->; now apply NE).
  rewrite (mean_Fin rs NE'). simpl.
  pose proof (Rsum_bounds rs H) as [Lo Hi].
  pose proof (INR_length_pos rs NE') as Pos.
  split.
  - apply Rmult_le_pos; [assumption | left; now apply Rinv_0_lt_compat].
  - apply Rmult_le_reg_r with (INR (length rs)); [assumption |].
    unfold Rdiv. rewrite Rmult_assoc, Rinv_l by lra. lra.
Qed.

(* ================================================================== *)
(** ** Properties of the Metropolis step *)

(** C9, as the code has it.  Let the acceptance function return an array
    that is not empty and has all its entries in [0,1].  Then the first
    component the step returns is the mean of that very array, the one
    compared with the uniform draws to build the move mask handed to the
    update, and it lies in [0,1]. *)
Theorem metrop_step_reports_mean_acceptance
    (P D PRNGKey : Type)
    (random_split : PRNGKey -> PRNGKey * PRNGKey)
    (random_uniform : PRNGKey -> nat -> list float)
    (proposal_fn : P -> D -> PRNGKey -> result (D * PRNGKey))
    (acceptance_fn : P -> D -> D -> result (list float))
    (update_data_fn : D -> D -> list bool -> result D)
    (data : D) (params : P) (key : PRNGKey)
    (proposed_data new_data : D) (key' : PRNGKey)
    (accept_prob : list float) :
  proposal_fn params data (fst (random_split key))
    = Return (proposed_data, key') ->
  acceptance_fn params data proposed_data = Return accept_prob ->
  update_data_fn data proposed_data
    (zip_with F.ltb
       (random_uniform (snd (random_split key)) (length accept_prob))
       accept_prob) = Return new_data ->
  accept_prob <> [] ->
  Forall in_unit_interval accept_prob ->
  metrop_step_fn random_split random_uniform
    proposal_fn acceptance_fn update_data_fn data params key
    = Return (jnp.mean accept_prob, new_data, key') /\
  in_unit_interval (jnp.mean accept_prob).
Proof.
  intros Hp Ha Hu NE H01. split.
  - unfold metrop_step_fn, move_mask_of.
    destruct (random_split key) as [k subkey]. simpl in Hp, Hu.
    rewrite Hp. cbn [bind]. rewrite Ha. cbn [bind]. now rewrite Hu.
  - now apply mean_in_unit_interval.
Qed.

Lemma metrop_step_reports_mean_acceptance_witness :
  metrop_step_fn (fun k : nat => (S k, k)) (fun _ n => repeat (Fin (1 / 2)) n)
    (fun (_ : unit) (d : nat) k => Return (S d, k))
    (fun _ _ _ => Return [Fin 1; Fin 0])
    (fun d d' mask => Return (if nth 0 mask false then d' else d))
    5%nat tt 0%nat
    = Return (jnp.mean [Fin 1; Fin 0], 6%nat, 1%nat) /\
  in_unit_interval (jnp.mean [Fin 1; Fin 0]).
Proof.
  refine (metrop_step_reports_mean_acceptance unit nat nat
            (fun k : nat => (S k, k)) (fun _ n => repeat (Fin (1 / 2)) n)
            (fun (_ : unit) (d : nat) k => Return (S d, k))
            (fun _ _ _ => Return [Fin 1; Fin 0])
            (fun d d' mask => Return (if nth 0 mask false then d' else d))
            5%nat tt 0%nat 6%nat 6%nat 1%nat [Fin 1; Fin 0]
            eq_refl eq_refl _ _ _).
  - cbn [length repeat zip_with snd nth].
    rewrite ltb_Fin_true by lra. reflexivity.
  - discriminate.
  - repeat constructor; simpl; lra.
Defined.

(** C9 as stated fails on an empty array of acceptance probabilities (no
    chain): all its entries are in [0,1], and the step reports their mean,
    which is NaN. *)
Lemma metrop_step_mean_of_no_chain :
  Forall in_unit_interval [] /\
  metrop_step_fn (fun k : nat => (S k, k)) (fun _ n => repeat (Fin (1 / 2)) n)
    (fun (_ : unit) (d : nat) k => Return (d, k))
    (fun _ _ _ => Return [])
    (fun d _ _ => Return d)
    0%nat tt 0%nat
    = Return (NaN, 0%nat, 1%nat) /\
  ~ in_unit_interval NaN.
Proof.
  split; [constructor |]. split; [| simpl; tauto].
  unfold metrop_step_fn. cbn [bind]. now rewrite mean_empty.
Qed.

(* ================================================================== *)
(** ** Properties of the energy estimator *)

(** Equality of two concrete arrays of finite numbers, entry by entry. *)
Ltac fin_list :=
  repeat (apply f_equal2; [apply f_equal; lra |]); reflexivity.

Lemma mean_1234 : jnp.mean [Fin 1; Fin 2; Fin 3; Fin 4] = Fin (5 / 2).
Proof.
  change [Fin 1; Fin 2; Fin 3; Fin 4] with (map Fin [1; 2; 3; 4]).
  rewrite mean_Fin by discriminate. f_equal. simpl. field.
Qed.

Lemma squared_deviations_1234 :
  jnp.square (jnp.subtract_scalar [Fin 1; Fin 2; Fin 3; Fin 4] (Fin (5 / 2)))
  = [Fin (9 / 4); Fin (1 / 4); Fin (1 / 4); Fin (9 / 4)].
Proof.
  cbn [jnp.square jnp.subtract_scalar map F.sub F.neg F.add F.mul].
  fin_list.
Qed.

Lemma mean_squared_deviations_1234 :
  jnp.mean [Fin (9 / 4); Fin (1 / 4); Fin (1 / 4); Fin (9 / 4)] = Fin (5 / 4).
Proof.
  change [Fin (9 / 4); Fin (1 / 4); Fin (1 / 4); Fin (9 / 4)]
    with (map Fin [9 / 4; 1 / 4; 1 / 4; 9 / 4]).
  rewrite mean_Fin by discriminate. f_equal. simpl. field.
Qed.

(** C6.  On a single worker ([pmean_if_pmap] is the identity), with local
    energies [1, 2, 3, 4] and [nchains = 4], the forward pass returns the
    energy 2.5 and the variance mean([2.25, 0.25, 0.25, 2.25]) * 4 / 3,
    which is 5/3: the Bessel-corrected sample variance. *)
Theorem energy_and_variance_of_four_chains
    (pmean_if_pmap : float -> float)
    (local_energy_fn : pytree float -> ndarray float -> result (list float))
    (params : pytree float) (positions : ndarray float) :
  (forall v, pmean_if_pmap v = v) ->
  local_energy_fn params positions = Return [Fin 1; Fin 2; Fin 3; Fin 4] ->
  compute_energy_data pmean_if_pmap local_energy_fn 4 params positions
    = Return (Fin (5 / 2), (Fin (5 / 3), [Fin 1; Fin 2; Fin 3; Fin 4])) /\
  F.div (F.mul (jnp.mean [Fin (9 / 4); Fin (1 / 4); Fin (1 / 4); Fin (9 / 4)])
               (Fin 4)) (Fin 3) = Fin (5 / 3).
Proof.
  intros Hid Hle.
  assert (V : F.div (F.mul (Fin (5 / 4)) (Fin 4)) (Fin 3) = Fin (5 / 3)).
  { cbn [F.mul]. rewrite div_Fin by lra. f_equal. lra. }
  split.
  - unfold compute_energy_data. rewrite Hle. cbn [bind].
    rewrite !Hid, mean_1234, squared_deviations_1234,
      mean_squared_deviations_1234.
    unfold F.of_Z. simpl Z.sub. now rewrite V.
  - now rewrite mean_squared_deviations_1234.
Qed.

Lemma energy_and_variance_of_four_chains_witness :
  compute_energy_data (fun v => v)
    (fun _ _ => Return [Fin 1; Fin 2; Fin 3; Fin 4]) 4
    [] (mk_ndarray [4%nat] [Fin 0; Fin 0; Fin 0; Fin 0])
    = Return (Fin (5 / 2), (Fin (5 / 3), [Fin 1; Fin 2; Fin 3; Fin 4])) /\
  F.div (F.mul (jnp.mean [Fin (9 / 4); Fin (1 / 4); Fin (1 / 4); Fin (9 / 4)])
               (Fin 4)) (Fin 3) = Fin (5 / 3).
Proof.
  exact (energy_and_variance_of_four_chains (fun v => v)
           (fun _ _ => Return [Fin 1; Fin 2; Fin 3; Fin 4])
           [] (mk_ndarray [4%nat] [Fin 0; Fin 0; Fin 0; Fin 0])
           (fun v => eq_refl) eq_refl).
Defined.




(** *** Constant local energies *)

Lemma length_subtract_scalar (xs : list float) (c : float) :
  length (jnp.subtract_scalar xs c) = length xs.
Proof.
  apply length_map.
Qed.









(* ================================================================== *)
(** ** The Laplacian of a Gaussian *)

Lemma nth_map_in {A B : Type} (f : A -> B) (l : list A) (i : nat)
    (d : B) (d' : A) :
  (i < length l)%nat -> nth i (map f l) d = f (nth i l d').
Proof.
  revert i. induction l as [| a l IH]; intros [| i] H; simpl in *;
    try lia; trivial.
  apply IH. lia.
Qed.

Lemma getitem_in {A : Type} (a : list A) (i : nat) (d : A) :
  (i < length a)%nat -> getitem a i = Return (nth i a d).
Proof.
  intros H. unfold getitem. destruct a as [| x a']; [simpl in H; lia |].
  rewrite Nat.min_l by lia. f_equal. now apply nth_indep.
Qed.

Lemma eye_nth (n i : nat) :
  (i < n)%nat -> nth i (jnp.eye n) [] = jnp.eye_row n i.
Proof.
  intros H. unfold jnp.eye.
  rewrite nth_map_in with (d' := O) by (now rewrite length_seq).
  now rewrite seq_nth.
Qed.

Lemma length_eye (n : nat) : length (jnp.eye n) = n.
Proof.
  unfold jnp.eye. now rewrite length_map, length_seq.
Qed.

Lemma length_eye_row (n i : nat) : length (jnp.eye_row n i) = n.
Proof.
  unfold jnp.eye_row. now rewrite length_map, length_seq.
Qed.

Lemma eye_row_diagonal (n i : nat) :
  (i < n)%nat -> nth i (map F.neg (jnp.eye_row n i)) NaN = Fin (- 1).
Proof.
  intros H. unfold jnp.eye_row. rewrite map_map.
  rewrite nth_map_in with (d' := O) by (now rewrite length_seq).
  rewrite seq_nth by exact H. simpl. now rewrite Nat.eqb_refl.
Qed.

Lemma mul_neg_neg (v : float) : F.mul (F.neg v) (F.neg v) = F.mul v v.
Proof.
  destruct v as [a | | |]; try reflexivity.
  cbn [F.neg F.mul]. f_equal. ring.
Qed.

(** A function that negates every entry, traced on duals, negates the
    primal entries and the tangent entries. *)
Lemma neg_on_duals (a b : list float) :
  length a = length b ->
  map fst (map nneg (combine a b)) = map F.neg a /\
  map snd (map nneg (combine a b)) = map F.neg b.
Proof.
  revert b. induction a as [| x a IH]; intros [| y b] E; simpl in *;
    try discriminate; [now split |].
  destruct (IH b) as [I1 I2]; [lia |]. now rewrite I1, I2.
Qed.

Lemma jvp_of_gaussian_grad (params : pytree float) (s : list nat)
    (flat_x v : list float) :
  size_of_shape s = length flat_x ->
  length flat_x = length v ->
  jax.jvp (flattened_grad_log_psi_of_flat_x gaussian_grad_log_psi params s)
    flat_x v
  = Return (map F.neg flat_x, map F.neg v).
Proof.
  intros Hs Hv. unfold jax.jvp, jax.with_tangents.
  rewrite Hv, Nat.eqb_refl. cbn [bind].
  unfold flattened_grad_log_psi_of_flat_x, jnp.reshape, dual.
  rewrite length_combine, <- Hv, Nat.min_id, Hs, Nat.eqb_refl. cbn [bind].
  unfold gaussian_grad_log_psi, jnp.ravel. cbn [bind data].
  destruct (neg_on_duals flat_x v Hv) as [E1 E2]. now rewrite E1, E2.
Qed.

Lemma step_fn_of_gaussian (params : pytree float) (s : list nat)
    (x : list float) (i : nat) (carry : float) :
  size_of_shape s = length x ->
  (i < length x)%nat ->
  step_fn gaussian_grad_log_psi params s x (jnp.eye (length x)) (i, carry)
  = Return (S i, add_gaussian_term carry (nth i x NaN)).
Proof.
  intros Hs Hi. unfold step_fn. cbn [fst snd].
  rewrite (getitem_in _ i []) by (now rewrite length_eye).
  cbn [bind]. rewrite eye_nth by exact Hi.
  rewrite jvp_of_gaussian_grad by (now rewrite ?length_eye_row).
  cbn [bind].
  rewrite (getitem_in _ i NaN) by (now rewrite length_map).
  cbn [bind].
  rewrite (getitem_in _ i NaN) by (now rewrite length_map, length_eye_row).
  cbn [bind].
  rewrite eye_row_diagonal by exact Hi.
  rewrite (nth_map_in F.neg x i NaN NaN) by exact Hi.
  now rewrite mul_neg_neg.
Qed.

Lemma skipn_cons_nth {A : Type} (l : list A) (i : nat) (d : A) :
  (i < length l)%nat -> skipn i l = nth i l d :: skipn (S i) l.
Proof.
  revert i. induction l as [| a l IH]; intros i H; simpl in H; [lia |].
  destruct i as [| i]; [reflexivity |].
  change (skipn (S i) (a :: l)) with (skipn i l).
  change (skipn (S (S i)) (a :: l)) with (skipn (S i) l).
  change (nth (S i) (a :: l) d) with (nth i l d).
  apply IH. lia.
Qed.

Lemma iterate_of_gaussian (params : pytree float) (s : list nat)
    (x : list float) :
  size_of_shape s = length x ->
  forall (k i : nat) (carry : float),
    (i + k = length x)%nat ->
    jax.iterate
      (step_fn gaussian_grad_log_psi params s x (jnp.eye (length x)))
      (i, carry) k
    = Return (length x, fold_left add_gaussian_term (skipn i x) carry).
Proof.
  intros Hs. induction k as [| k IH]; intros i carry Hik.
  - cbn [jax.iterate]. replace i with (length x) by lia.
    now rewrite skipn_all.
  - cbn [jax.iterate]. rewrite step_fn_of_gaussian by (trivial; lia).
    cbn [bind]. rewrite IH by lia.
    now rewrite (skipn_cons_nth x i NaN) by lia.
Qed.

(** C8, as the code has it.  For [gradLogPsi(params, x) = -x], the
    gradient of [log|psi|] for [psi(x) = exp(-|x|^2 / 2)], and every array
    [x] of [n >= 1] entries, of whatever shape, [laplacian_psi_over_psi]
    returns the sum of the [x_i * x_i - 1] over the entries, that is
    [|x|^2 - n], each term added to the carry, from 0.0 and in the order
    of the entries, as [(carry + x_i * x_i) + (-1)]. *)
Theorem laplacian_of_gaussian (params : pytree float) (s : list nat)
    (x : list float) :
  size_of_shape s = length x ->
  x <> [] ->
  laplacian_psi_over_psi gaussian_grad_log_psi params (mk_ndarray s x)
  = Return (fold_left add_gaussian_term x (Fin 0)).
Proof.
  intros Hs NE. unfold laplacian_psi_over_psi, jnp.ravel, jax.lax_scan.
  cbn [shape data].
  assert (Hn : (0 < length x)%nat) by (destruct x; [congruence | simpl; lia]).
  rewrite step_fn_of_gaussian by assumption. cbn [bind].
  rewrite (iterate_of_gaussian params s x Hs (length x) 0 (Fin 0)) by lia.
  reflexivity.
Qed.

Lemma laplacian_of_gaussian_witness :
  size_of_shape [1%nat; 2%nat] = length [Fin 3; Fin 4] /\
  [Fin 3; Fin 4] <> [] /\
  laplacian_psi_over_psi gaussian_grad_log_psi [Fin 5]
    (mk_ndarray [1%nat; 2%nat] [Fin 3; Fin 4])
  = Return (fold_left add_gaussian_term [Fin 3; Fin 4] (Fin 0)).
Proof.
  assert (H : size_of_shape [1%nat; 2%nat] = length [Fin 3; Fin 4])
    by reflexivity.
  assert (NE : [Fin 3; Fin 4] <> []) by discriminate.
  split; [exact H |]. split; [exact NE |].
  exact (laplacian_of_gaussian [Fin 5] [1%nat; 2%nat] [Fin 3; Fin 4] H NE).
Defined.

(** In exact arithmetic, on finite entries, the sum of the
    [x_i * x_i - 1] is [|x|^2 - n]. *)
Lemma gaussian_sum_in_exact_arithmetic (xs : list R) (carry : R) :
  fold_left add_gaussian_term (map Fin xs) (Fin carry)
  = Fin (carry + (norm2 xs - INR (length xs))).
Proof.
  revert carry. induction xs as [| x xs IH]; intros carry.
  - simpl. f_equal. lra.
  - change (length (x :: xs)) with (S (length xs)). rewrite S_INR.
    cbn [map fold_left]. unfold add_gaussian_term at 2.
    cbn [F.mul F.add]. rewrite IH. f_equal.
    cbn [norm2 fold_right]. fold (norm2 xs). lra.
Qed.

(** C8 as stated fails for [n = 0]: the closed form is [|x|^2 - 0 = 0],
    but on an array with no entry the body of the scan, which jax traces
    once, indexes the identity matrix of size 0 and raises. *)
Lemma laplacian_of_gaussian_without_entries :
  laplacian_psi_over_psi gaussian_grad_log_psi [] (mk_ndarray [0%nat] [])
  = Raise IndexError.
Proof.
  reflexivity.
Qed.


(* ================================================================== *)
(** ** Further properties of the acceptance rule *)

Lemma broadcast2_length {A B C : Type} (f : A -> B -> C) xs ys zs :
  broadcast2 f xs ys = Return zs ->
  length zs = if Nat.eqb (length xs) 1 then length ys else length xs.
Proof.
  unfold broadcast2.
  destruct (Nat.eqb_spec (length xs) (length ys)) as [E | NE].
  - intros [= <-]. rewrite length_zip_with, <- E, Nat.min_id.
    now destruct (Nat.eqb (length xs) 1).
  - destruct xs as [| x [| x' xs]], ys as [| y [| y' ys]]; simpl in *;
      try discriminate; intros [= <-]; simpl; now rewrite ?length_map.
Qed.

Lemma broadcast2_raises_TypeError {A B C : Type} (f : A -> B -> C) xs ys e :
  broadcast2 f xs ys = Raise e -> e = TypeError.
Proof.
  unfold broadcast2. destruct (Nat.eqb (length xs) (length ys));
    [discriminate |].
  destruct xs as [| x [| x' xs]], ys as [| y [| y' ys]];
    try discriminate; now intros [= <-].
Qed.

Lemma nth_zip_with {A B C : Type} (f : A -> B -> C) xs ys i dc da db :
  (i < length xs)%nat -> (i < length ys)%nat ->
  nth i (zip_with f xs ys) dc = f (nth i xs da) (nth i ys db).
Proof.
  revert ys i. induction xs as [| x xs IH]; intros [| y ys] [| i] Hx Hy;
    simpl in *; try lia; trivial.
  apply IH; lia.
Qed.

(** X5.  Safe division by zero, chain by chain: a chain whose current raw
    amplitude is zero accepts with ratio 1 whatever is proposed for it, a
    NaN or an infinity included, and whatever the other chains hold. *)
Theorem raw_acceptance_from_zero_amplitude
    (amplitude proposed_amplitude : list float) (chain : nat) :
  length amplitude = length proposed_amplitude ->
  (chain < length amplitude)%nat ->
  nth chain amplitude NaN = Fin 0 ->
  exists ratio,
    metropolis_symmetric_acceptance amplitude proposed_amplitude false
      = Return ratio /\
    nth chain ratio NaN = Fin 1.
Proof.
  intros E Hc H0. rewrite metropolis_symmetric_acceptance_same by exact E.
  eexists. split; [reflexivity |].
  rewrite (nth_zip_with _ _ _ chain NaN NaN NaN) by lia.
  rewrite H0. unfold acceptance_entry. cbn [negb F.mul].
  rewrite (eqb_Fin_true (0 * 0) 0) by lra. now rewrite orb_true_r.
Qed.

Lemma raw_acceptance_from_zero_amplitude_witness :
  exists ratio,
    metropolis_symmetric_acceptance
      [Fin 3; Fin 0; Fin 0] [Fin 2; NaN; PosInf] false
      = Return ratio /\
    nth 2 ratio NaN = Fin 1.
Proof.
  apply (raw_acceptance_from_zero_amplitude
           [Fin 3; Fin 0; Fin 0] [Fin 2; NaN; PosInf] 2).
  - reflexivity.
  - simpl. lia.
  - reflexivity.
Defined.

Lemma two_times_NegInf : F.mul (Fin 2) NegInf = NegInf.
Proof.
  simpl. destruct (Rcompare_spec 2 0); trivial; lra.
Qed.

(** X6.  Log amplitudes of minus infinity (a wave function that vanishes),
    against a finite log amplitude [a] whose double does not overflow:
    leaving such a configuration for the finite one is accepted with
    ratio 1, entering one from the finite one has ratio 0, but between two
    of them the ratio is NaN, [(-inf) - (-inf)] not being guarded. *)
Theorem log_acceptance_at_vanishing_amplitude (a : R) :
  2 * Rabs a <= float32_max ->
  metropolis_symmetric_acceptance [NegInf] [Fin a] true = Return [Fin 1] /\
  metropolis_symmetric_acceptance [Fin a] [NegInf] true = Return [Fin 0] /\
  metropolis_symmetric_acceptance [NegInf] [NegInf] true = Return [NaN].
Proof.
  intros _.
  repeat split; rewrite metropolis_symmetric_acceptance_left1;
    cbn [map]; unfold acceptance_entry; cbn [negb];
    rewrite !two_times_NegInf; reflexivity.
Qed.

Lemma log_acceptance_at_vanishing_amplitude_witness :
  metropolis_symmetric_acceptance [NegInf] [Fin 1] true = Return [Fin 1] /\
  metropolis_symmetric_acceptance [Fin 1] [NegInf] true = Return [Fin 0] /\
  metropolis_symmetric_acceptance [NegInf] [NegInf] true = Return [NaN].
Proof.
  apply (log_acceptance_at_vanishing_amplitude 1).
  pose proof float32_max_lower as M. rewrite Rabs_R1. lra.
Defined.

(** X7.  Shapes: the rule returns exactly on one-dimensional shapes that
    broadcast together, an array of the broadcast length; on any other
    pair of shapes it raises [TypeError].  Empty arrays give an empty
    array. *)
Theorem acceptance_shape
    (amplitude proposed_amplitude : list float) (logabs : bool) :
  match metropolis_symmetric_acceptance amplitude proposed_amplitude logabs
  with
  | Return ratio =>
      broadcastable (length amplitude) (length proposed_amplitude) /\
      length ratio =
        (if Nat.eqb (length amplitude) 1 then length proposed_amplitude
         else length amplitude)
  | Raise e =>
      e = TypeError /\
      ~ broadcastable (length amplitude) (length proposed_amplitude)
  end.
Proof.
  rewrite metropolis_symmetric_acceptance_entries.
  destruct (broadcast2 _ _ _) as [ratio | e] eqn:E.
  - split; [now apply broadcast2_returns in E |].
    now apply broadcast2_length in E.
  - split; [now apply broadcast2_raises_TypeError in E |].
    now apply broadcast2_raise_inv in E.
Qed.

(* ================================================================== *)
(** ** Further properties of the Metropolis step and of the proposal *)

(** X9.  The move mask, chain by chain.  It compares with a strict [<],
    and the uniform draws lie in the interval from 0 (included) to 1
    (excluded): a chain whose acceptance probability is at least 1 moves,
    and a chain whose acceptance probability is at most 0 does not,
    whatever the other chains hold. *)
Theorem move_mask_of_certain_chain
    (PRNGKey : Type) (random_uniform : PRNGKey -> nat -> list float)
    (subkey : PRNGKey) (accept_prob : list float) (chain : nat) (u p : R) :
  length (random_uniform subkey (length accept_prob)) = length accept_prob ->
  (chain < length accept_prob)%nat ->
  nth chain (random_uniform subkey (length accept_prob)) NaN = Fin u ->
  0 <= u < 1 ->
  nth chain accept_prob NaN = Fin p ->
  (1 <= p ->
   nth chain (move_mask_of random_uniform subkey accept_prob) false = true) /\
  (p <= 0 ->
   nth chain (move_mask_of random_uniform subkey accept_prob) true = false).
Proof.
  intros Hlen Hc Hu Hr Hp. unfold move_mask_of.
  split; intros H;
    rewrite (nth_zip_with _ _ _ chain _ NaN NaN) by lia;
    rewrite Hu, Hp.
  - apply ltb_Fin_true. lra.
  - apply ltb_Fin_false. lra.
Qed.

Lemma move_mask_of_certain_chain_witness :
  nth 0 (move_mask_of (fun (_ : nat) n => repeat (Fin (1 / 2)) n) 0%nat
           [Fin 1; Fin 0]) false = true /\
  nth 1 (move_mask_of (fun (_ : nat) n => repeat (Fin (1 / 2)) n) 0%nat
           [Fin 1; Fin 0]) true = false.
Proof.
  assert (Hr : 0 <= 1 / 2 < 1) by lra.
  split.
  - apply (move_mask_of_certain_chain nat
             (fun (_ : nat) n => repeat (Fin (1 / 2)) n) 0%nat
             [Fin 1; Fin 0] 0 (1 / 2) 1 eq_refl); trivial.
    + simpl. lia.
    + lra.
  - apply (move_mask_of_certain_chain nat
             (fun (_ : nat) n => repeat (Fin (1 / 2)) n) 0%nat
             [Fin 1; Fin 0] 1 (1 / 2) 0 eq_refl); trivial.
    + simpl. lia.
    + lra.
Defined.

(** X11.  With a zero standard deviation the Gaussian proposal proposes
    the finite positions it was given, unchanged, and still advances the
    key. *)
Theorem gaussian_proposal_zero_std
    (PRNGKey : Type) (random_split : PRNGKey -> PRNGKey * PRNGKey)
    (random_normal : PRNGKey -> nat -> list float)
    (s : list nat) (xs zs : list R) (key : PRNGKey) :
  random_normal (snd (random_split key)) (length xs) = map Fin zs ->
  length zs = length xs ->
  gaussian_proposal random_split random_normal
    (mk_ndarray s (map Fin xs)) (Fin 0) key
  = (mk_ndarray s (map Fin xs), fst (random_split key)).
Proof.
  intros Hz Hlen. unfold gaussian_proposal.
  destruct (random_split key) as [k subkey]. cbn [fst snd data shape] in *.
  rewrite length_map, Hz. do 2 f_equal. clear Hz.
  unfold jnp.scalar_multiply. revert zs Hlen.
  induction xs as [| x xs IH]; intros [| z zs] Hlen; simpl in *;
    try discriminate; trivial.
  rewrite IH by lia. f_equal. f_equal. lra.
Qed.

Lemma gaussian_proposal_zero_std_witness :
  gaussian_proposal (fun k : nat => (S k, k))
    (fun _ n => map Fin (repeat 7 n))
    (mk_ndarray [2%nat] (map Fin [1; 2])) (Fin 0) 4%nat
  = (mk_ndarray [2%nat] (map Fin [1; 2]),
     fst ((fun k : nat => (S k, k)) 4%nat)).
Proof.
  exact (gaussian_proposal_zero_std nat (fun k : nat => (S k, k))
           (fun _ n => map Fin (repeat 7 n))
           [2%nat] [1; 2] [7; 7] 4%nat eq_refl eq_refl).
Defined.

(** X12.  The proposal on position and amplitude data keeps the amplitude
    in step with the position: when it returns, the proposed amplitude is
    what the model returns at the proposed position, which is the one
    [gaussian_proposal] draws; it raises exactly when the model raises
    there. *)
Theorem proposal_amplitude_is_model_at_proposed_position
    (P PRNGKey : Type) (random_split : PRNGKey -> PRNGKey * PRNGKey)
    (random_normal : PRNGKey -> nat -> list float)
    (model_apply : P -> ndarray float -> result (list float))
    (std_move : float) (params : P) (data : PositionAmplitudeData)
    (key : PRNGKey) :
  match make_position_amplitude_gaussian_proposal random_split random_normal
          model_apply std_move params data key with
  | Return (proposed_data, key') =>
      (position proposed_data, key')
        = gaussian_proposal random_split random_normal
            (position data) std_move key /\
      model_apply params (position proposed_data)
        = Return (amplitude proposed_data)
  | Raise e =>
      model_apply params
        (fst (gaussian_proposal random_split random_normal
                (position data) std_move key)) = Raise e
  end.
Proof.
  unfold make_position_amplitude_gaussian_proposal.
  destruct (gaussian_proposal _ _ _ _ _) as [proposed_position key'].
  cbn [fst].
  destruct (model_apply params proposed_position) as [a | e] eqn:E;
    cbn [bind position amplitude]; auto.
Qed.

Lemma entries_in_unit_interval (logabs : bool) (a b : list float) :
  Forall (amplitude_in_range logabs) a ->
  Forall (amplitude_in_range logabs) b ->
  Forall in_unit_interval (zip_with (acceptance_entry logabs) a b).
Proof.
  intros Ha. revert b.
  induction Ha as [| x a Hx _ IH]; intros b Hb; [constructor |].
  destruct Hb as [| y b Hy Hb]; [constructor |].
  cbn [zip_with]. constructor; [| now apply IH].
  destruct (amplitude_in_range_finite logabs x Hx) as [r ->].
  destruct (amplitude_in_range_finite logabs y Hy) as [r' ->].
  apply entry_unit_interval.
Qed.

Lemma small_amplitude_in_range (logabs : bool) (r : R) :
  - 4 <= r <= 4 -> amplitude_in_range logabs (Fin r).
Proof.
  intros H. pose proof float32_max_lower as M. destruct logabs; simpl.
  - assert (Rabs r <= 4) by (apply Rabs_le; lra). lra.
  - nra.
Qed.

(** X13.  The assembled step (Gaussian proposal, symmetric Metropolis
    acceptance, the given update): on at least one chain, with current
    amplitudes in range (finite, and so are their squares, for raw
    amplitudes, or their doubles, for log amplitudes), a model that
    returns one amplitude in range per chain at the proposed positions and
    an update that returns, the step returns and the mean acceptance it
    reports is a finite number of the interval [0,1], in both
    representations. *)
Theorem gaussian_metropolis_step_mean_acceptance
    (P PRNGKey : Type) (random_split : PRNGKey -> PRNGKey * PRNGKey)
    (random_uniform random_normal : PRNGKey -> nat -> list float)
    (update_position_amplitude :
       PositionAmplitudeData -> PositionAmplitudeData -> list bool ->
       result PositionAmplitudeData)
    (std_move : float)
    (model_apply : P -> ndarray float -> result (list float))
    (logabs : bool) (data : PositionAmplitudeData) (params : P)
    (key : PRNGKey) (proposed : list float) :
  Forall (amplitude_in_range logabs) (amplitude data) ->
  amplitude data <> [] ->
  model_apply params
    (fst (gaussian_proposal random_split random_normal
            (position data) std_move (fst (random_split key))))
    = Return proposed ->
  Forall (amplitude_in_range logabs) proposed ->
  length proposed = length (amplitude data) ->
  (forall proposed_data mask, exists new_data,
      update_position_amplitude data proposed_data mask = Return new_data) ->
  exists mean_acceptance new_data key',
    make_position_amplitude_gaussian_metropolis_step
      random_split random_uniform random_normal update_position_amplitude
      std_move model_apply logabs data params key
    = Return (mean_acceptance, new_data, key') /\
    in_unit_interval mean_acceptance.
Proof.
  intros Hcur NE Hmodel Hprop Hlen Hupd.
  unfold make_position_amplitude_gaussian_metropolis_step,
    make_metropolis_step, metrop_step_fn,
    make_position_amplitude_gaussian_proposal,
    make_position_amplitude_metropolis_symmetric_acceptance.
  destruct (random_split key) as [k subkey]. cbn [fst] in Hmodel.
  destruct (gaussian_proposal _ _ _ _ k) as [proposed_position key'].
  cbn [fst] in Hmodel. rewrite Hmodel. cbn [bind amplitude].
  rewrite metropolis_symmetric_acceptance_same by (now rewrite Hlen).
  cbn [bind].
  set (accept_prob := zip_with (acceptance_entry logabs)
                        (amplitude data) proposed).
  destruct (Hupd (mk_PositionAmplitudeData proposed_position proposed)
              (move_mask_of random_uniform subkey accept_prob))
    as [new_data Hnew].
  rewrite Hnew. cbn [bind].
  exists (jnp.mean accept_prob), new_data, key'. split; [reflexivity |].
  apply mean_in_unit_interval.
  - unfold accept_prob. destruct (amplitude data), proposed; simpl in *;
      try discriminate; congruence.
  - now apply entries_in_unit_interval.
Qed.

Lemma gaussian_metropolis_step_mean_acceptance_witness :
  exists mean_acceptance new_data key',
    make_position_amplitude_gaussian_metropolis_step
      (fun k : nat => (S k, k)) (fun _ n => repeat (Fin (1 / 2)) n)
      (fun _ n => repeat (Fin 0) n)
      (fun _ proposed_data _ => Return proposed_data)
      (Fin 1) (fun (_ : unit) x => Return (data x)) true
      (mk_PositionAmplitudeData (mk_ndarray [2%nat] [Fin 1; Fin 2])
         [Fin 1; Fin 2]) tt 0%nat
    = Return (mean_acceptance, new_data, key') /\
    in_unit_interval mean_acceptance.
Proof.
  apply (gaussian_metropolis_step_mean_acceptance unit nat
           (fun k : nat => (S k, k)) (fun _ n => repeat (Fin (1 / 2)) n)
           (fun _ n => repeat (Fin 0) n)
           (fun _ proposed_data _ => Return proposed_data)
           (Fin 1) (fun (_ : unit) x => Return (data x)) true
           (mk_PositionAmplitudeData (mk_ndarray [2%nat] [Fin 1; Fin 2])
              [Fin 1; Fin 2]) tt 0%nat
           [Fin (1 + 1 * 0); Fin (2 + 1 * 0)]).
  - repeat (apply Forall_cons; [apply small_amplitude_in_range; lra |]).
    apply Forall_nil.
  - discriminate.
  - reflexivity.
  - repeat (apply Forall_cons; [apply small_amplitude_in_range; lra |]).
    apply Forall_nil.
  - reflexivity.
  - intros proposed_data mask. now exists proposed_data.
Defined.

(* ================================================================== *)
(** ** Further properties of the energy estimator *)

(** X16.  With no chain at all (an empty array of local energies) the
    forward pass on a single worker raises nothing: the energy and the
    variance are both NaN, whatever [nchains] is among the integers that
    it and [nchains - 1] can be in the arithmetic of the arrays, those of
    32 bits. *)
Theorem energy_data_of_no_chain
    (pmean_if_pmap : float -> float)
    (local_energy_fn : pytree float -> ndarray float -> result (list float))
    (nchains : Z) (params : pytree float) (positions : ndarray float) :
  (- 2 ^ 31 < nchains < 2 ^ 31)%Z ->
  (forall v, pmean_if_pmap v = v) ->
  local_energy_fn params positions = Return [] ->
  compute_energy_data pmean_if_pmap local_energy_fn nchains params positions
  = Return (NaN, (NaN, [])).
Proof.
  intros _ Hid Hle. unfold compute_energy_data. rewrite Hle. cbn [bind].
  rewrite !Hid. cbn [jnp.subtract_scalar jnp.square map].
  now rewrite mean_empty.
Qed.

Lemma energy_data_of_no_chain_witness :
  compute_energy_data (fun v => v) (fun _ _ => Return []) 5
    [] (mk_ndarray [0%nat] [])
  = Return (NaN, (NaN, [])).
Proof.
  apply (energy_data_of_no_chain (fun v => v) (fun _ _ => Return []) 5
           [] (mk_ndarray [0%nat] [])).
  - lia.
  - reflexivity.
  - reflexivity.
Defined.

(** X17.  The differentiation rule and the forward pass agree.  When the
    rule returns, its primal output is what the forward pass returns at
    the same point, the tangent it gives for the auxiliary data is the
    auxiliary data itself, and [log_psi_apply] gave one tangent per local
    energy.  When it raises, the forward pass raised the same error, or
    the differentiation of [log_psi_apply] did, or the error is the
    [TypeError] of a dot product of arrays of different lengths. *)
Theorem energy_jvp_agrees_with_forward_pass
    (pmean_if_pmap : float -> float)
    (log_psi_apply :
       forall T : Type, Numeric T -> pytree T -> ndarray T -> result (list T))
    (local_energy_fn : pytree float -> ndarray float -> result (list float))
    (nchains : Z)
    (params dparams : pytree float) (positions dpositions : ndarray float) :
  match compute_energy_data_jvp pmean_if_pmap log_psi_apply local_energy_fn
          nchains (params, positions) (dparams, dpositions) with
  | Return (primals_out, tangents_out) =>
      compute_energy_data pmean_if_pmap local_energy_fn nchains
        params positions = Return primals_out /\
      snd tangents_out = snd primals_out /\
      exists psi psi_tangents,
        jax.jvp2 log_psi_apply (params, positions) (dparams, dpositions)
          = Return (psi, psi_tangents) /\
        length psi_tangents = length (snd (snd primals_out))
  | Raise e =>
      compute_energy_data pmean_if_pmap local_energy_fn nchains
        params positions = Raise e \/
      jax.jvp2 log_psi_apply (params, positions) (dparams, dpositions)
        = Raise e \/
      (e = TypeError /\
       exists energy variance local_energies psi psi_tangents,
         compute_energy_data pmean_if_pmap local_energy_fn nchains
           params positions
           = Return (energy, (variance, local_energies)) /\
         jax.jvp2 log_psi_apply (params, positions) (dparams, dpositions)
           = Return (psi, psi_tangents) /\
         length psi_tangents <> length local_energies)
  end.
Proof.
  unfold compute_energy_data_jvp.
  destruct (compute_energy_data _ _ _ _ _)
    as [[energy [variance local_energies]] | e] eqn:F; cbn [bind];
    [| now left].
  assert (L : local_energy_fn params positions = Return local_energies).
  { revert F. unfold compute_energy_data.
    destruct (local_energy_fn params positions); cbn [bind];
      [| discriminate].
    now intros [= _ _ ->]. }
  destruct (jax.jvp2 _ _ _) as [[psi psi_tangents] | e] eqn:J; cbn [bind];
    [| now right; left].
  unfold jnp.dot. rewrite length_subtract_scalar.
  destruct (Nat.eqb_spec (length psi_tangents) (length local_energies))
    as [E | NE]; cbn [bind].
  - repeat split. now exists psi, psi_tangents.
  - right; right. split; [reflexivity |].
    now exists energy, variance, local_energies, psi, psi_tangents.
Qed.

(* ================================================================== *)
(** ** Further properties of the Laplacian *)

(** X21.  Edge and error behaviour of the Laplacian.  On an array with no
    entry the body of the scan, traced once although the scan has length
    zero, indexes an identity matrix without rows: the computation raises
    [IndexError] whatever [grad_log_psi] is, which is not called.  On a
    well-formed array with at least one entry, an error that
    [grad_log_psi] raises on the traced input of the first step is the
    error of the whole computation. *)
Theorem laplacian_edge_cases
    (grad_log_psi :
       forall T : Type, Numeric T -> pytree T -> ndarray T ->
                        result (ndarray T))
    (params : pytree float) (x : ndarray float) :
  (data x = [] ->
   laplacian_psi_over_psi grad_log_psi params x = Raise IndexError) /\
  (forall e,
      ndarray_wf x ->
      data x <> [] ->
      grad_log_psi dual Numeric_dual (map const params)
        (mk_ndarray (shape x)
           (combine (data x) (jnp.eye_row (length (data x)) 0))) = Raise e ->
      laplacian_psi_over_psi grad_log_psi params x = Raise e).
Proof.
  unfold laplacian_psi_over_psi, jnp.ravel, jax.lax_scan. split.
  - intros ->. reflexivity.
  - intros e Hwf NE Hraise.
    destruct (data x) as [| x0 xs] eqn:E; [congruence |].
    unfold step_fn at 1. cbn [fst].
    rewrite (getitem_in _ 0 []) by (rewrite length_eye; simpl; lia).
    cbn [bind]. rewrite eye_nth by (simpl; lia).
    unfold jax.jvp, jax.with_tangents.
    rewrite length_eye_row. cbn [length]. rewrite Nat.eqb_refl.
    cbn [bind].
    unfold flattened_grad_log_psi_of_flat_x, jnp.reshape, dual.
    rewrite length_combine, length_eye_row. cbn [length].
    rewrite Nat.min_id.
    unfold ndarray_wf in Hwf. rewrite E in Hwf. cbn [length] in Hwf.
    rewrite Hwf, Nat.eqb_refl. cbn [bind].
    cbn [length] in Hraise. unfold dual in Hraise. now rewrite Hraise.
Qed.

Lemma laplacian_edge_cases_witness :
  laplacian_psi_over_psi (fun _ _ _ _ => Raise TypeError) []
    (mk_ndarray [0%nat] []) = Raise IndexError /\
  laplacian_psi_over_psi (fun _ _ _ _ => Raise TypeError) []
    (mk_ndarray [1%nat] [Fin 2]) = Raise TypeError.
Proof.
  split.
  - exact (proj1 (laplacian_edge_cases (fun _ _ _ _ => Raise TypeError) []
                    (mk_ndarray [0%nat] [])) eq_refl).
  - apply (proj2 (laplacian_edge_cases (fun _ _ _ _ => Raise TypeError) []
                    (mk_ndarray [1%nat] [Fin 2]))).
    + reflexivity.
    + discriminate.
    + reflexivity.
Defined.
